(** * overpass-diff-publisher: a shallow embedding of [index.js]

    The program reads an augmented-diff feed (markers and GeoJSON feature
    collections), annotates every feature collection with a visibility flag,
    groups the events between markers into per-sequence batches and writes
    each batch, followed by a [state.yaml] position record, to a [file:] or
    [s3:] target.

    Conventions of the embedding.
    - JavaScript numbers that hold sequence numbers and epoch milliseconds
      are integers of [Z]: the arithmetic of the program is exact on them
      below 2^53, which covers every time value a [Date] can hold.  [null]
      for the batcher's [sequence] variable is [None].  [NaN] is a value of
      its own ([JsNaN], or [None] where only a number or [NaN] can occur).
    - JSON-like objects are records of the fields the program reads or
      writes; a feature's [properties] object is a finite map.
    - Promises and callbacks are functions on an explicit [World]: the two
      stores the program writes to, the log of attempted effects and an
      oracle that decides which attempts fail.
    - Library functions whose text is not part of the program ([url.parse],
      [path.resolve], [zlib.gzip], [JSON.stringify], the [yaml] package,
      [Date.parse] on strings, [Date.prototype.toISOString]) are the fields
      of the class [Runtime]. *)

From Stdlib Require Import ZArith QArith Qround String Ascii List Lia.
From stdpp Require Import gmap strings list pretty.
Import ListNotations.

Close Scope Q_scope.
Open Scope string_scope.
Open Scope list_scope.
Open Scope Z_scope.

(** ** JavaScript values *)

Definition Error := string.

(** A [Date] holds a time value in milliseconds, or is an Invalid Date. *)
Inductive Date :=
| ValidDate (ms : Z)
| InvalidDate.

Inductive JsValue :=
| JsUndefined
| JsNull
| JsBool (b : bool)
| JsNaN
| JsNumber (z : Z)
| JsString (s : string)
| JsDate (d : Date).

(** The test an [if (v)] performs. *)
Definition truthy (v : JsValue) : bool :=
  match v with
  | JsUndefined | JsNull | JsNaN => false
  | JsBool b => b
  | JsNumber z => negb (z =? 0)%Z
  | JsString s => negb (s =? "")%string
  | JsDate _ => true
  end.

(** The outcome of a computation that may throw (or of a promise that may
    reject). *)
Inductive Outcome (A : Type) :=
| Ok (a : A)
| Throw (e : Error).
Arguments Ok {A} a.
Arguments Throw {A} e.

(** ** Events of the feed *)

(** A GeoJSON feature: [id] is ["old"] or ["new"] inside a feature
    collection of an augmented diff. *)
Record Feature := mkFeature {
  feat_id : string;
  feat_properties : gmap string JsValue
}.

(** A feature collection; [fc_id] is the action that produced it
    (["create"], ["modify"], ["delete"]). *)
Record FeatureCollection := mkFeatureCollection {
  fc_id : string;
  fc_features : list Feature
}.

(** A marker; [sequenceNumber] is the number that
    [Number(x.properties.sequenceNumber)] makes of the property. *)
Record Marker := mkMarker {
  status : string;
  sequenceNumber : Z
}.

(** [obj.type === "Marker"] tells the two apart. *)
Inductive Event :=
| EvMarker (m : Marker)
| EvFeatureCollection (fc : FeatureCollection).

(** ** ExtractionStream *)

Module ExtractionStream.

(** [features.find(f => f.id === "new")], as the position of the feature
    found, so that the assignment below can update it in place. *)
Fixpoint find_new (features : list Feature) : option nat :=
  match features with
  | [] => None
  | f :: rest =>
      if (feat_id f =? "new")%string then Some 0%nat
      else S <$> find_new rest
  end.

(** [feature.properties.visible = v] *)
Definition set_visible (v : bool) (feature : Feature) : Feature :=
  {| feat_id := feat_id feature;
     feat_properties := <["visible" := JsBool v]> (feat_properties feature) |}.

(** [_transform(obj, _, callback)]: the object pushed downstream, or the
    [TypeError] raised by [feature.properties] when [find] returned
    [undefined]. *)
Definition _transform (obj : Event) : Outcome Event :=
  match obj with
  | EvMarker _ => Ok obj
  | EvFeatureCollection fc =>
      match find_new (fc_features fc) with
      | None => Throw "TypeError: Cannot read property 'properties' of undefined"
      | Some i =>
          let visible := negb (fc_id fc =? "delete")%string in
          Ok (EvFeatureCollection
                {| fc_id := fc_id fc;
                   fc_features := alter (set_visible visible) i (fc_features fc) |})
      end
  end.

(** The transform stream over a finite run of the feed: the events pushed
    downstream, and the exception that stopped the run, if any. *)
Fixpoint run (feed : list Event) : list Event * option Error :=
  match feed with
  | [] => ([], None)
  | obj :: rest =>
      match _transform obj with
      | Throw e => ([], Some e)
      | Ok obj' => let '(out, err) := run rest in (obj' :: out, err)
      end
  end.

End ExtractionStream.

(** ** Batching by sequence *)

(** What a highland stream delivers to a [consume] handler before [_.nil]:
    an error or a value. *)
Inductive StreamItem :=
| SErr (err : Error)
| SVal (x : Event).

(** What the handler pushes downstream: [push(err)] or
    [push(null, [sequence, batched])]. *)
Inductive Emitted :=
| PushErr (err : Error)
| PushVal (sb : option Z * list Event).

Record BatcherState := mkBatcherState {
  batched : list Event;
  sequence : option Z
}.

(** [let batched = []; let sequence = null;] *)
Definition batcher_init : BatcherState :=
  {| batched := []; sequence := None |}.

(** The flush shared by the end marker and the end of the stream:
    [if (batched.length > 0) push(null, [sequence, batched])].  The array
    pushed is not touched again: an end marker rebinds [batched] to a new
    array right after, and nothing follows [_.nil]. *)
Definition flush (st : BatcherState) : list Emitted :=
  if (0 <? length (batched st))%nat then [PushVal (sequence st, batched st)] else [].

(** One call of the handler on an item other than [_.nil]. *)
Definition consume_step (st : BatcherState) (item : StreamItem)
  : list Emitted * BatcherState :=
  match item with
  | SErr err => ([PushErr err], st)
  | SVal (EvMarker m) =>
      let st1 :=
        if (status m =? "start")%string
        then {| batched := batched st; sequence := Some (sequenceNumber m) |}
        else st in
      if (status m =? "end")%string
      then (flush st1, {| batched := []; sequence := sequence st1 |})
      else ([], st1)
  | SVal x => ([], {| batched := batched st ++ [x]; sequence := sequence st |})
  end.

(** The handler driven over the items of a stream, without the final
    [_.nil]. *)
Fixpoint consume_items (st : BatcherState) (items : list StreamItem)
  : list Emitted * BatcherState :=
  match items with
  | [] => ([], st)
  | item :: rest =>
      let '(out, st1) := consume_step st item in
      let '(outs, st2) := consume_items st1 rest in
      (out ++ outs, st2)
  end.

(** The whole [through] stage on a stream that ends: everything pushed
    before [_.nil], then the flush at [_.nil]. *)
Definition batch_by_sequence (items : list StreamItem) : list Emitted :=
  let '(out, st) := consume_items batcher_init items in
  out ++ flush st.

(** The revision of the program that writes flat, uncompressed objects. *)
Module Legacy.

Definition flush (st : BatcherState) : list Emitted :=
  if (0 <? length (batched st))%nat then [PushVal (sequence st, batched st)] else [].

Fixpoint consume (st : BatcherState) (items : list StreamItem) : list Emitted :=
  match items with
  | [] => flush st
  | SErr err :: rest => PushErr err :: consume st rest
  | SVal (EvMarker m) :: rest =>
      let st1 :=
        if (status m =? "start")%string
        then {| batched := batched st; sequence := Some (sequenceNumber m) |}
        else st in
      if (status m =? "end")%string
      then flush st1 ++ consume {| batched := []; sequence := sequence st1 |} rest
      else consume st1 rest
  | SVal x :: rest =>
      consume {| batched := batched st ++ [x]; sequence := sequence st |} rest
  end.

Definition batch_by_sequence (items : list StreamItem) : list Emitted :=
  consume batcher_init items.

End Legacy.

(** ** Strings and numbers of the JavaScript library *)

(** The line feed of a template literal's [\n]. *)
Definition newline : string := String (ascii_of_nat 10) "".

(** [Number.prototype.toString] on an integer is stdpp's decimal printer:
    the digits, after a ["-"] for a negative number. *)
Definition Number_toString (n : Z) : string := pretty n.

(** The [i]-th decimal digit of [n], counted from the units. *)
Definition decimal_digit (i : nat) (n : Z) : ascii :=
  pretty_N_char (Z.to_N ((n / 10 ^ Z.of_nat i) mod 10)).

Fixpoint string_repeat (s : string) (count : nat) : string :=
  match count with
  | O => ""
  | S count' => s +:+ string_repeat s count'
  end.

(** [s.padStart(targetLength, padString)] *)
Definition padStart (s : string) (targetLength : nat) (padString : string) : string :=
  let len := String.length s in
  if ((targetLength <=? len)%nat || (padString =? "")%string)%bool then s
  else
    let fillLen := (targetLength - len)%nat in
    substring 0 fillLen (string_repeat padString fillLen) +:+ s.

(** [s.slice(from, to)] for the literal, non-negative bounds the program
    uses. *)
Definition slice (s : string) (from to : nat) : string :=
  substring from (to - from) s.

(** [s.slice(from)] *)
Definition slice_from (s : string) (from : nat) : string :=
  substring from (String.length s - from) s.

(** [xs.join("")] *)
Definition join_empty (xs : list string) : string :=
  fold_right String.append "" xs.

(** [new Date(value)]: the time value is clipped; beyond 8.64e15
    milliseconds either side of the epoch the date is invalid. *)
Definition new_Date (value : Z) : Date :=
  if Z.abs value <=? 8640000000000000 then ValidDate value else InvalidDate.

(** ** Sequence numbers and timestamps *)

Definition sequenceToTimestamp (sequence : Z) : Date :=
  new_Date ((sequence * 60 + 1347432900) * 1000).

(** ** The library functions the program calls *)

Record Url := mkUrl {
  protocol : string;
  host : string;
  path : string
}.

(** The value [YAML.parse] returns: a mapping, or a scalar. *)
Inductive YamlDocument :=
| YamlMap (fields : gmap string JsValue)
| YamlScalar (v : JsValue).

Class Runtime := {
  url_parse : string -> Url;
  path_resolve : string -> string -> string;
  path_dirname : string -> string;
  gzip : string -> string;
  JSON_stringify : Event -> string;
  (** [YAML.stringify({ last_run, sequence })] *)
  YAML_stringify : string -> option Z -> string;
  YAML_parse : string -> Outcome YamlDocument;
  (** [Date.parse] on a string: milliseconds, or [None] for [NaN]. *)
  Date_parse_string : string -> option Z;
  (** [toISOString] and [toString] of a valid date, from its time value. *)
  Date_toISOString_ms : Z -> string;
  Date_toString_ms : Z -> string
}.

(** ** The world outside the process *)

(** The calls that reach the file system or the object store. *)
Inductive Effect :=
| S3_putObject (Bucket Key Body : string)
    (ContentEncoding : option string) (ContentType : string)
| S3_getObject (Bucket Key : string)
| fs_mkdirs (dir : string)
| fs_writeFile (file data : string)
| fs_readFile (file : string).

(** [log] lists the calls attempted so far, oldest first, each with the
    error it failed with ([None]: it completed).  [faults] is the oracle:
    the next call takes its head; [Some err] makes the call fail with [err]
    and leave the stores as they are. *)
Record World := mkWorld {
  files : gmap string string;
  objects : gmap (string * string) string;
  log : list (Effect * option Error);
  faults : list (option Error);
  stdout : list string;
  now : string
}.

(** A promise-returning computation: its settlement and the world after. *)
Definition IO (A : Type) : Type := World -> Outcome A * World.

#[global] Instance IO_ret : MRet IO := fun A a w => (Ok a, w).

#[global] Instance IO_bind : MBind IO := fun A B f m w =>
  match m w with
  | (Ok a, w') => f a w'
  | (Throw e, w') => (Throw e, w')
  end.

(** [throw e], or awaiting a value already settled. *)
Definition settle {A} (o : Outcome A) : IO A := fun w => (o, w).

(** [try { body } catch (err) { handler(err) }] *)
Definition try_catch {A} (body : IO A) (handler : Error -> IO A) : IO A :=
  fun w =>
    match body w with
    | (Ok a, w') => (Ok a, w')
    | (Throw e, w') => handler e w'
    end.

Definition next_fault (w : World) : option Error :=
  match faults w with
  | Some err :: _ => Some err
  | _ => None
  end.

Definition record (eff : Effect) (res : option Error) (w : World) : World :=
  {| files := files w; objects := objects w;
     log := log w ++ [(eff, res)];
     faults := tail (faults w);
     stdout := stdout w; now := now w |}.

(** What a completed call leaves in the stores. *)
Definition commit (eff : Effect) (w : World) : World :=
  match eff with
  | S3_putObject Bucket Key Body _ _ =>
      {| files := files w; objects := <[(Bucket, Key) := Body]> (objects w);
         log := log w; faults := faults w; stdout := stdout w; now := now w |}
  | fs_writeFile file data =>
      {| files := <[file := data]> (files w); objects := objects w;
         log := log w; faults := faults w; stdout := stdout w; now := now w |}
  | S3_getObject _ _ | fs_mkdirs _ | fs_readFile _ => w
  end.

(** A write: it fails when the oracle says so, and completes otherwise. *)
Definition perform (eff : Effect) : IO unit := fun w =>
  match next_fault w with
  | Some err => (Throw err, record eff (Some err) w)
  | None => (Ok tt, record eff None (commit eff w))
  end.

(** A read: it also fails when there is nothing stored under the name. *)
Definition fetch (eff : Effect) (stored : World -> option string) : IO string :=
  fun w =>
    match next_fault w with
    | Some err => (Throw err, record eff (Some err) w)
    | None =>
        match stored w with
        | Some data => (Ok data, record eff None w)
        | None =>
            let err := "Error: no such file or key" in
            (Throw err, record eff (Some err) w)
        end
    end.

Definition readFile (file : string) : IO string :=
  fetch (fs_readFile file) (fun w => files w !! file).

Definition getObject (Bucket Key : string) : IO string :=
  fetch (S3_getObject Bucket Key) (fun w => objects w !! (Bucket, Key)).

Definition console_log (line : string) : IO unit := fun w =>
  (Ok tt,
   {| files := files w; objects := objects w; log := log w;
      faults := faults w; stdout := stdout w ++ [line]; now := now w |}).

(** [new Date().toISOString()] *)
Definition now_toISOString : IO string := fun w => (Ok (now w), w).

Section Program.

Context `{Runtime}.

(** [Date.parse(v)] converts [v] to a string first.  For a [Date] the
    string is [toString()], which has whole seconds, and parsing it gives
    the time value back (ECMAScript, Date.parse); an Invalid Date prints as
    ["Invalid Date"], which does not parse.  [None] is [NaN]. *)
Definition Date_parse (v : JsValue) : option Z :=
  match v with
  | JsDate (ValidDate ms) => Some (ms / 1000 * 1000)
  | JsDate InvalidDate => None
  | JsString s => Date_parse_string s
  | JsNumber z => Date_parse_string (Number_toString z)
  | JsUndefined | JsNull | JsNaN | JsBool _ => None
  end.

(** [Math.ceil((Date.parse(timestamp) / 1000 - 1347432900) / 60)];
    [None] is [NaN]. *)
Definition timestampToSequence (timestamp : JsValue) : option Z :=
  match Date_parse timestamp with
  | Some ms => Some (Qceiling ((inject_Z ms / 1000 - 1347432900) / 60)%Q)
  | None => None
  end.

(** [date.toISOString()], which throws on an Invalid Date. *)
Definition Date_toISOString (d : Date) : Outcome string :=
  match d with
  | ValidDate ms => Ok (Date_toISOString_ms ms)
  | InvalidDate => Throw "RangeError: Invalid time value"
  end.

(** ** Resuming from the stored position *)

(** [document.sequence] *)
Definition get_sequence (document : YamlDocument) : Outcome JsValue :=
  match document with
  | YamlMap fields => Ok (default JsUndefined (fields !! "sequence"))
  | YamlScalar JsUndefined | YamlScalar JsNull =>
      Throw "TypeError: Cannot read property 'sequence'"
  | YamlScalar _ => Ok JsUndefined
  end.

(** [v + 1] *)
Definition plus_one (v : JsValue) : JsValue :=
  match v with
  | JsNumber z => JsNumber (z + 1)
  | JsUndefined | JsNaN => JsNaN
  | JsNull => JsNumber 1
  | JsBool b => JsNumber (if b then 2 else 1)
  | JsString s => JsString (s +:+ "1")
  | JsDate (ValidDate ms) => JsString (Date_toString_ms ms +:+ "1")
  | JsDate InvalidDate => JsString "Invalid Date1"
  end.

Definition getCurrentSequence (u : string) : IO JsValue :=
  let uri := url_parse u in
  if (protocol uri =? "file:")%string then
    let prefix := host uri +:+ path uri in
    text ← readFile (path_resolve prefix "state.yaml");
    state ← settle (YAML_parse text);
    seq ← settle (get_sequence state);
    mret (plus_one seq)
  else if (protocol uri =? "s3:")%string then
    body ← getObject (host uri) (slice_from (path uri) 1 +:+ "state.yaml");
    state ← settle (YAML_parse body);
    seq ← settle (get_sequence state);
    mret (plus_one seq)
  else
    settle (Throw ("Unsupported protocol: " +:+ protocol uri)).

(** ** Writing a batch *)

(** [`${sequence}`] and [sequence * 60] for the batcher's [sequence], which
    is [null] or a number. *)
Definition ToString_sequence (sequence : option Z) : string :=
  match sequence with
  | None => "null"
  | Some n => Number_toString n
  end.

Definition ToNumber_sequence (sequence : option Z) : Z :=
  match sequence with
  | None => 0
  | Some n => n
  end.

(** [s] and [sequencePath] of the writer; the pad [0] of
    [padStart(9, 0)] is the string ["0"]. *)
Definition sequencePath (sequence : Z) : string :=
  let s := padStart (Number_toString sequence) 9 "0" in
  slice s 0 3 +:+ "/" +:+ slice s 3 6 +:+ "/" +:+ slice s 6 9.

(** The name of the data object under the target's prefix. *)
Definition data_key (sequence : Z) : string :=
  sequencePath sequence +:+ ".json.gz".

(** [writer(targetURI)([sequence, batch], callback)].  [Ok None] is
    [callback()], [Ok (Some err)] is [callback(err)]; [Throw] is an
    exception outside the [try] blocks, which rejects the promise of the
    async function (nobody handles it: the [unhandledRejection] hook ends
    the process). *)
Definition writer (targetURI : string) (sb : option Z * list Event)
  : IO (option Error) :=
  let '(sequence, batch) := sb in
  iso ← settle (Date_toISOString
                  (sequenceToTimestamp (ToNumber_sequence sequence)));
  _ ← console_log (ToString_sequence sequence +:+ " (" +:+ iso +:+ "): "
                   +:+ pretty (length batch));
  let uri := url_parse targetURI in
  let body := join_empty (map (fun x => JSON_stringify x +:+ newline) batch) in
  last_run ← now_toISOString;
  let state := YAML_stringify last_run sequence in
  n ← settle (match sequence with
              | None => Throw "TypeError: Cannot read property 'toString' of null"
              | Some n => Ok n
              end);
  if (protocol uri =? "s3:")%string then
    try_catch
      (_ ← perform (S3_putObject (host uri)
                      (slice_from (path uri) 1 +:+ data_key n)
                      (gzip body) (Some "gzip") "application/json");
       _ ← perform (S3_putObject (host uri)
                      (slice_from (path uri) 1 +:+ "state.yaml")
                      state None "application/vnd.yaml");
       mret None)
      (fun err => mret (Some err))
  else if (protocol uri =? "file:")%string then
    let prefix := host uri +:+ path uri in
    try_catch
      (_ ← perform (fs_mkdirs
                      (path_resolve prefix (path_dirname (sequencePath n))));
       _ ← perform (fs_writeFile (path_resolve prefix (data_key n))
                      (gzip body));
       _ ← perform (fs_writeFile (path_resolve prefix "state.yaml") state);
       mret None)
      (fun err => mret (Some err))
  else
    mret (Some ("Unsupported protocol: " +:+ protocol uri)).

(** ** main *)

(** The options [command-line-args] hands over; an option that was not
    given is [JsUndefined] ([None] for the target). *)
Record Options := mkOptions {
  initialSequence : JsValue;
  timestamp : JsValue;
  target : option string
}.

(** [options.target || "file://./"] *)
Definition targetURI_of (options : Options) : string :=
  match target options with
  | Some t => if (t =? "")%string then "file://./" else t
  | None => "file://./"
  end.

Definition number_or_NaN (n : option Z) : JsValue :=
  match n with
  | Some z => JsNumber z
  | None => JsNaN
  end.

(** The [if] / [else if] / [else] that sets [initialSequence]. *)
Definition main_initialSequence (options : Options) : IO JsValue :=
  if truthy (initialSequence options) then
    mret (initialSequence options)
  else if truthy (timestamp options) then
    mret (number_or_NaN (timestampToSequence (timestamp options)))
  else
    getCurrentSequence (targetURI_of options).

(** How the process ends: [resolve] (exit status 0), or an error that
    reaches [reject] or the [unhandledRejection] hook (exit status 1). *)
Inductive Exit :=
| Resolved
| Failed (err : Error).

(** [.flatMap(_.wrapCallback(writer(targetURI))).errors(reject).done(resolve)]:
    the batches are written one after the other; the first error, from the
    stream or from a writer, ends the run. *)
Fixpoint publish (targetURI : string) (emitted : list Emitted)
  : World -> Exit * World :=
  match emitted with
  | [] => fun w => (Resolved, w)
  | PushErr err :: _ => fun w => (Failed err, w)
  | PushVal sb :: rest => fun w =>
      match writer targetURI sb w with
      | (Ok None, w') => publish targetURI rest w'
      | (Ok (Some err), w') => (Failed err, w')
      | (Throw err, w') => (Failed err, w')
      end
  end.

(** What reaches the writer from a finite run of the parsed feed: the
    extraction stream, then the batcher.  An exception in [_transform] ends
    the process; what was pushed before it has gone through the batcher,
    and there is no end of the stream to flush on. *)
Definition batches_of (feed : list Event) : list Emitted * option Error :=
  let '(events, crash) := ExtractionStream.run feed in
  match crash with
  | None => (batch_by_sequence (map SVal events), None)
  | Some err => (fst (consume_items batcher_init (map SVal events)), Some err)
  end.

(** [main()], given what [AugmentedDiffs] delivers from an initial
    sequence on. *)
Definition main (options : Options) (AugmentedDiffs : JsValue -> list Event)
  : World -> Exit * World := fun w =>
  match main_initialSequence options w with
  | (Throw err, w') => (Failed err, w')
  | (Ok initial, w') =>
      let '(emitted, crash) := batches_of (AugmentedDiffs initial) in
      match publish (targetURI_of options) emitted w', crash with
      | (Resolved, w''), Some err => (Failed err, w'')
      | r, _ => r
      end
  end.

End Program.

(** * Vocabulary of the properties *)

Definition start_marker (n : Z) : StreamItem :=
  SVal (EvMarker {| status := "start"; sequenceNumber := n |}).

Definition end_marker (n : Z) : StreamItem :=
  SVal (EvMarker {| status := "end"; sequenceNumber := n |}).

Definition change (fc : FeatureCollection) : StreamItem :=
  SVal (EvFeatureCollection fc).

Definition is_start (item : StreamItem) : bool :=
  match item with
  | SVal (EvMarker m) => (status m =? "start")%string
  | _ => false
  end.

Definition is_end (item : StreamItem) : bool :=
  match item with
  | SVal (EvMarker m) => (status m =? "end")%string
  | _ => false
  end.

(** The sequence number of the last start marker of a stream, searched
    from its end; [None] when the stream has no start marker. *)
Fixpoint last_start (items : list StreamItem) : option Z :=
  match items with
  | [] => None
  | item :: rest =>
      match last_start rest with
      | Some n => Some n
      | None =>
          match item with
          | SVal (EvMarker m) =>
              if (status m =? "start")%string then Some (sequenceNumber m) else None
          | _ => None
          end
      end
  end.

(** The values of a stream that are not markers, in order. *)
Fixpoint feature_changes (items : list StreamItem) : list Event :=
  match items with
  | [] => []
  | SVal (EvFeatureCollection fc) :: rest =>
      EvFeatureCollection fc :: feature_changes rest
  | _ :: rest => feature_changes rest
  end.

(** The errors of a stream, in order. *)
Fixpoint stream_errors (items : list StreamItem) : list Emitted :=
  match items with
  | [] => []
  | SErr err :: rest => PushErr err :: stream_errors rest
  | _ :: rest => stream_errors rest
  end.

(** A complete pair: a start marker, feature changes, an end marker. *)
Record MarkerPair := mkPair {
  pair_start : Z;
  pair_changes : list FeatureCollection;
  pair_end : Z
}.

Definition pair_stream (p : MarkerPair) : list StreamItem :=
  start_marker (pair_start p)
    :: map change (pair_changes p) ++ [end_marker (pair_end p)].

Definition pairs_stream (ps : list MarkerPair) : list StreamItem :=
  concat (map pair_stream ps).

Definition pair_batch (p : MarkerPair) : Emitted :=
  PushVal (Some (pair_start p), map EvFeatureCollection (pair_changes p)).

Definition has_changes (p : MarkerPair) : bool :=
  match pair_changes p with
  | [] => false
  | _ :: _ => true
  end.

Definition or_else (a b : option Z) : option Z :=
  match a with
  | Some n => Some n
  | None => b
  end.

(** The last sequence number whose timestamp is a valid [Date]. *)
Definition last_dated_sequence : Z := 143977542785.

(** The [k] low decimal digits of [x], written before [s]. *)
Fixpoint fixed_digits (k : nat) (x : N) (s : string) : string :=
  match k with
  | O => s
  | S k' => fixed_digits k' (x / 10)%N (String (pretty_N_char (x mod 10)%N) s)
  end.

(** The decimal digits [i], [i+1], ... of [n], [k] of them, written before
    [s] with the highest first. *)
Fixpoint digits_upto (i k : nat) (n : Z) (s : string) : string :=
  match k with
  | O => s
  | S k' => digits_upto (S i) k' n (String (decimal_digit i n) s)
  end.

(** Three digits of a sequence number, as a directory or file name. *)
Definition digits3 (a b c : nat) (n : Z) : string :=
  String (decimal_digit a n)
    (String (decimal_digit b n) (String (decimal_digit c n) "")).

Definition new_feature (properties : gmap string JsValue) : Feature :=
  {| feat_id := "new"; feat_properties := properties |}.

Definition old_feature (properties : gmap string JsValue) : Feature :=
  {| feat_id := "old"; feat_properties := properties |}.

(** Whether a name has a ["/"] in it. *)
Fixpoint has_slash (s : string) : bool :=
  match s with
  | "" => false
  | String c rest => (c =? "/")%char || has_slash rest
  end.

(** ** A small runtime to run the program on *)

Module Demo.

(** ["scheme://host/path"] split at ["://"] and at the next ["/"]. *)
Definition url_parse (u : string) : Url :=
  match index 0 "://" u with
  | None => {| protocol := "null"; host := "null"; path := u |}
  | Some i =>
      let rest := slice_from u (i + 3) in
      match index 0 "/" rest with
      | None =>
          {| protocol := substring 0 (i + 1) u; host := rest; path := "/" |}
      | Some j =>
          {| protocol := substring 0 (i + 1) u;
             host := substring 0 j rest;
             path := slice_from rest j |}
      end
  end.

Fixpoint path_dirname (p : string) : string :=
  match p with
  | "" => ""
  | String c rest => if has_slash rest then String c (path_dirname rest) else ""
  end.

Fixpoint parse_digits (s : string) (acc : Z) : Z :=
  match s with
  | String c rest =>
      let d := Z.of_nat (nat_of_ascii c) - 48 in
      if ((0 <=? d) && (d <=? 9))%bool then parse_digits rest (acc * 10 + d)
      else acc
  | "" => acc
  end.

(** Reads the number after ["sequence: "]. *)
Definition YAML_parse (text : string) : Outcome YamlDocument :=
  match index 0 "sequence: " text with
  | None => Ok (YamlMap ∅)
  | Some i =>
      Ok (YamlMap
            {[ "sequence" := JsNumber (parse_digits (slice_from text (i + 10)) 0) ]})
  end.

Definition YAML_stringify (last_run : string) (sequence : option Z) : string :=
  "last_run: " +:+ last_run +:+ newline
    +:+ "sequence: " +:+ ToString_sequence sequence +:+ newline.

Definition JSON_stringify (x : Event) : string :=
  match x with
  | EvMarker m => "{marker " +:+ status m +:+ "}"
  | EvFeatureCollection fc => "{" +:+ fc_id fc +:+ "}"
  end.

Definition runtime : Runtime :=
  Build_Runtime
    url_parse
    (fun from to => from +:+ to)
    path_dirname
    (fun data => "gzip(" +:+ data +:+ ")")
    JSON_stringify
    YAML_stringify
    YAML_parse
    (fun _ => None)
    (fun ms => pretty ms +:+ "ms")
    (fun ms => pretty (ms / 1000) +:+ "s").

(** A world whose working directory holds the state of sequence 99. *)
Definition world (failures : list (option Error)) : World :=
  {| files := {[ "./state.yaml" := YAML_stringify "2019-01-01T00:00:00.000Z" (Some 99) ]};
     objects := ∅;
     log := [];
     faults := failures;
     stdout := [];
     now := "2019-01-01T00:01:00.000Z" |}.

End Demo.

Definition no_override (t : option string) : Options :=
  {| initialSequence := JsUndefined; timestamp := JsUndefined; target := t |}.

(** The calls of one [try] block, in order, up to the first that fails:
    [try { await a; await b; ... } catch (err) { return callback(err); }
    return callback();] *)
Fixpoint perform_each (effs : list Effect) : IO (option Error) := fun w =>
  match effs with
  | [] => (Ok None, w)
  | eff :: rest =>
      match perform eff w with
      | (Ok _, w') => perform_each rest w'
      | (Throw err, w') => (Ok (Some err), w')
      end
  end.

(** The world once the writer has printed its line. *)
Definition after_line (line : string) (w : World) : World :=
  {| files := files w; objects := objects w; log := log w;
     faults := faults w; stdout := stdout w ++ [line]; now := now w |}.

Section Vocabulary.

Context `{Runtime}.

(** Where [getCurrentSequence] and the writer keep the state of a target. *)
Definition stored_state (u : string) (w : World) : option string :=
  let uri := url_parse u in
  if (protocol uri =? "file:")%string then
    files w !! path_resolve (host uri +:+ path uri) "state.yaml"
  else if (protocol uri =? "s3:")%string then
    objects w !! (host uri, slice_from (path uri) 1 +:+ "state.yaml")
  else None.

(** A call that writes the state object of the target. *)
Definition is_state_write (targetURI : string) (eff : Effect) : bool :=
  let uri := url_parse targetURI in
  match eff with
  | S3_putObject Bucket Key _ _ _ =>
      (protocol uri =? "s3:")%string && (Bucket =? host uri)%string
      && (Key =? slice_from (path uri) 1 +:+ "state.yaml")%string
  | fs_writeFile file _ =>
      (protocol uri =? "file:")%string
      && (file =? path_resolve (host uri +:+ path uri) "state.yaml")%string
  | _ => false
  end.

(** A call that writes the data object of sequence [n]. *)
Definition is_data_write (targetURI : string) (n : Z) (eff : Effect) : bool :=
  let uri := url_parse targetURI in
  match eff with
  | S3_putObject Bucket Key _ _ _ =>
      (protocol uri =? "s3:")%string && (Bucket =? host uri)%string
      && (Key =? slice_from (path uri) 1 +:+ data_key n)%string
  | fs_writeFile file _ =>
      (protocol uri =? "file:")%string
      && (file =? path_resolve (host uri +:+ path uri) (data_key n))%string
  | _ => false
  end.

(** The data object and the state object of a [file:] target are different
    files. *)
Definition distinct_files (targetURI : string) (n : Z) : Prop :=
  let uri := url_parse targetURI in
  path_resolve (host uri +:+ path uri) (data_key n)
  <> path_resolve (host uri +:+ path uri) "state.yaml".

(** The three calls of the writer for sequence [n]. *)
Definition data_put (targetURI : string) (n : Z) (batch : list Event) : Effect :=
  let uri := url_parse targetURI in
  S3_putObject (host uri) (slice_from (path uri) 1 +:+ data_key n)
    (gzip (join_empty (map (fun x => JSON_stringify x +:+ newline) batch)))
    (Some "gzip") "application/json".

Definition state_put (targetURI : string) (n : Z) (last_run : string) : Effect :=
  let uri := url_parse targetURI in
  S3_putObject (host uri) (slice_from (path uri) 1 +:+ "state.yaml")
    (YAML_stringify last_run (Some n)) None "application/vnd.yaml".

Definition data_dir (targetURI : string) (n : Z) : Effect :=
  let uri := url_parse targetURI in
  fs_mkdirs (path_resolve (host uri +:+ path uri) (path_dirname (sequencePath n))).

Definition data_file (targetURI : string) (n : Z) (batch : list Event) : Effect :=
  let uri := url_parse targetURI in
  fs_writeFile (path_resolve (host uri +:+ path uri) (data_key n))
    (gzip (join_empty (map (fun x => JSON_stringify x +:+ newline) batch))).

Definition state_file (targetURI : string) (n : Z) (last_run : string) : Effect :=
  let uri := url_parse targetURI in
  fs_writeFile (path_resolve (host uri +:+ path uri) "state.yaml")
    (YAML_stringify last_run (Some n)).

(** The calls the writer makes for a batch, from the target and the
    sequence. *)
Definition writer_calls (targetURI : string) (n : Z) (batch : list Event)
    (last_run : string) : list Effect :=
  if (protocol (url_parse targetURI) =? "s3:")%string then
    [data_put targetURI n batch; state_put targetURI n last_run]
  else if (protocol (url_parse targetURI) =? "file:")%string then
    [data_dir targetURI n; data_file targetURI n batch;
     state_file targetURI n last_run]
  else [].

End Vocabulary.

(** ** Vocabulary of the further properties *)

(** The feature changes of everything pushed, batch after batch. *)
Fixpoint emitted_items (out : list Emitted) : list Event :=
  match out with
  | [] => []
  | PushVal sb :: rest => snd sb ++ emitted_items rest
  | PushErr _ :: rest => emitted_items rest
  end.

(** The errors among what was pushed, in order. *)
Fixpoint emitted_errors (out : list Emitted) : list Emitted :=
  match out with
  | [] => []
  | PushErr err :: rest => PushErr err :: emitted_errors rest
  | PushVal _ :: rest => emitted_errors rest
  end.

(** The batches among what was pushed, in order. *)
Fixpoint emitted_batches (out : list Emitted) : list (option Z * list Event) :=
  match out with
  | [] => []
  | PushVal sb :: rest => sb :: emitted_batches rest
  | PushErr _ :: rest => emitted_batches rest
  end.

(** A stream without its errors. *)
Fixpoint stream_values (items : list StreamItem) : list StreamItem :=
  match items with
  | [] => []
  | SErr _ :: rest => stream_values rest
  | SVal x :: rest => SVal x :: stream_values rest
  end.

(** A marker that is neither a start nor an end marker. *)
Definition is_other_marker (item : StreamItem) : bool :=
  match item with
  | SVal (EvMarker m) =>
      negb (status m =? "start")%string && negb (status m =? "end")%string
  | _ => false
  end.

(** Whether a feature collection has a feature with id ["new"]. *)
Definition has_new (fc : FeatureCollection) : bool :=
  existsb (fun f => (feat_id f =? "new")%string) (fc_features fc).

(** Whether [_transform] accepts an event. *)
Definition transformable (obj : Event) : bool :=
  match obj with
  | EvMarker _ => true
  | EvFeatureCollection fc => has_new fc
  end.

(** What [_transform] pushes for an event it accepts (the event itself
    where it throws). *)
Definition transformed (obj : Event) : Event :=
  match ExtractionStream._transform obj with
  | Ok out => out
  | Throw _ => obj
  end.

(** A batch with each of its items transformed. *)
Definition transformed_emitted (e : Emitted) : Emitted :=
  match e with
  | PushErr err => PushErr err
  | PushVal sb => PushVal (fst sb, map transformed (snd sb))
  end.

(** The batcher's variables, and a stream item, with the events
    transformed. *)
Definition transformed_state (st : BatcherState) : BatcherState :=
  {| batched := map transformed (batched st); sequence := sequence st |}.

Definition transformed_item (item : StreamItem) : StreamItem :=
  match item with
  | SErr err => SErr err
  | SVal x => SVal (transformed x)
  end.

(** The time value of the timestamp of a sequence, in milliseconds. *)
Definition sequence_ms (n : Z) : Z := (n * 60 + 1347432900) * 1000.

(** The stores of a world, without its log and oracle. *)
Definition same_stores (w w' : World) : Prop :=
  files w' = files w /\ objects w' = objects w.

(** The lines of a batch, as the writer joins them. *)
Definition batch_body `{Runtime} (batch : list Event) : string :=
  join_empty (map (fun x => JSON_stringify x +:+ newline) batch).

(** Where the writer keeps the data object of sequence [n]. *)
Definition stored_data `{Runtime} (u : string) (n : Z) (w : World)
  : option string :=
  let uri := url_parse u in
  if (protocol uri =? "file:")%string then
    files w !! path_resolve (host uri +:+ path uri) (data_key n)
  else if (protocol uri =? "s3:")%string then
    objects w !! (host uri, slice_from (path uri) 1 +:+ data_key n)
  else None.

(** The call by which [getCurrentSequence] reads the state of a target. *)
Definition state_read `{Runtime} (u : string) : Effect :=
  let uri := url_parse u in
  if (protocol uri =? "file:")%string then
    fs_readFile (path_resolve (host uri +:+ path uri) "state.yaml")
  else
    S3_getObject (host uri) (slice_from (path uri) 1 +:+ "state.yaml").

(** Whether a target is one the program can read and write. *)
Definition supported `{Runtime} (u : string) : bool :=
  (protocol (url_parse u) =? "file:")%string
  || (protocol (url_parse u) =? "s3:")%string.

(** Whether a logged call is a read. *)
Definition is_read (eff : Effect) : bool :=
  match eff with
  | fs_readFile _ | S3_getObject _ _ => true
  | _ => false
  end.

(** The oracle lets the next [k] calls complete. *)
Definition no_fault_within (k : nat) (w : World) : Prop :=
  Forall (fun fault : option Error => fault = None) (take k (faults w)).

(** The world after calls that all completed. *)
Definition after_calls (calls : list Effect) (w : World) : World :=
  fold_left (fun w eff => record eff None (commit eff w)) calls w.

(** The line the writer prints for a batch. *)
Definition writer_line `{Runtime} (sequence : option Z) (batch : list Event)
  : string :=
  match sequenceToTimestamp (ToNumber_sequence sequence) with
  | ValidDate ms =>
      ToString_sequence sequence +:+ " (" +:+ Date_toISOString_ms ms
        +:+ "): " +:+ pretty (length batch)
  | InvalidDate => ""
  end.

(** A batch with a sequence number, as the batcher pushes it. *)
Definition numbered_batch (sb : Z * list Event) : Emitted :=
  PushVal (Some (fst sb), snd sb).

(** The log entries of the calls the writer makes for a batch when all of
    them complete. *)
Definition completed_calls `{Runtime} (u : string) (last_run : string)
    (sb : Z * list Event) : list (Effect * option Error) :=
  map (fun c => (c, None)) (writer_calls u (fst sb) (snd sb) last_run).

(** The events of a complete pair, and of a feed made of complete pairs. *)
Definition pair_events (p : MarkerPair) : list Event :=
  EvMarker {| status := "start"; sequenceNumber := pair_start p |}
    :: map EvFeatureCollection (pair_changes p)
    ++ [EvMarker {| status := "end"; sequenceNumber := pair_end p |}].

Definition pairs_events (ps : list MarkerPair) : list Event :=
  concat (map pair_events ps).

(** What the writer receives for a pair: the number of its start marker and
    its feature changes, transformed. *)
Definition pair_written (p : MarkerPair) : Z * list Event :=
  (pair_start p, map transformed (map EvFeatureCollection (pair_changes p))).

(** A pair the program can publish: its sequence has a timestamp and each
    of its feature collections has a feature with id ["new"]. *)
Definition publishable (p : MarkerPair) : Prop :=
  0 <= pair_start p <= last_dated_sequence /\
  forallb has_new (pair_changes p) = true.

(** Whether the writer can print the timestamp of a batch's sequence. *)
Definition dated (sequence : option Z) : Prop :=
  match sequence with
  | None => True
  | Some n => 0 <= n <= last_dated_sequence
  end.

(** ** The flat, uncompressed revision of the program *)

Module LegacyRevision.

(** [`${sequence}.json`] *)
Definition flat_key (sequence : option Z) : string :=
  ToString_sequence sequence +:+ ".json".

(** [writer(targetURI)([sequence, batch], callback)] of the revision: the
    body goes out as it is, under the flat key. *)
Definition writer `{Runtime} (targetURI : string) (sb : option Z * list Event)
  : IO (option Error) :=
  let '(sequence, batch) := sb in
  iso ← settle (Date_toISOString
                  (sequenceToTimestamp (ToNumber_sequence sequence)));
  _ ← console_log (ToString_sequence sequence +:+ " (" +:+ iso +:+ "): "
                   +:+ pretty (length batch));
  let uri := url_parse targetURI in
  let body := join_empty (map (fun x => JSON_stringify x +:+ newline) batch) in
  last_run ← now_toISOString;
  let state := YAML_stringify last_run sequence in
  if (protocol uri =? "s3:")%string then
    try_catch
      (_ ← perform (S3_putObject (host uri)
                      (slice_from (path uri) 1 +:+ flat_key sequence)
                      body None "application/json");
       _ ← perform (S3_putObject (host uri)
                      (slice_from (path uri) 1 +:+ "state.yaml")
                      state None "application/vnd.yaml");
       mret None)
      (fun err => mret (Some err))
  else if (protocol uri =? "file:")%string then
    let prefix := host uri +:+ path uri in
    try_catch
      (_ ← perform (fs_writeFile (path_resolve prefix (flat_key sequence)) body);
       _ ← perform (fs_writeFile (path_resolve prefix "state.yaml") state);
       mret None)
      (fun err => mret (Some err))
  else
    mret (Some ("Unsupported protocol: " +:+ protocol uri)).

(** [a || b] *)
Definition js_or (a b : JsValue) : JsValue := if truthy a then a else b.

(** The [if] / [else] that sets [initialSequence] in the revision. *)
Definition main_initialSequence `{Runtime} (options : Options) : IO JsValue :=
  if truthy (js_or (initialSequence options) (timestamp options)) then
    mret (js_or (initialSequence options) (timestamp options))
  else
    getCurrentSequence (targetURI_of options).

(** The calls the writer of the revision makes for a batch. *)
Definition writer_calls `{Runtime} (u : string) (sequence : option Z)
    (batch : list Event) (last_run : string) : list Effect :=
  let uri := url_parse u in
  let body := join_empty (map (fun x => JSON_stringify x +:+ newline) batch) in
  let state := YAML_stringify last_run sequence in
  if (protocol uri =? "s3:")%string then
    [S3_putObject (host uri) (slice_from (path uri) 1 +:+ flat_key sequence)
       body None "application/json";
     S3_putObject (host uri) (slice_from (path uri) 1 +:+ "state.yaml")
       state None "application/vnd.yaml"]
  else if (protocol uri =? "file:")%string then
    [fs_writeFile (path_resolve (host uri +:+ path uri) (flat_key sequence)) body;
     fs_writeFile (path_resolve (host uri +:+ path uri) "state.yaml") state]
  else [].

(** Where the writer of the revision keeps the data object of a batch. *)
Definition stored_data `{Runtime} (u : string) (sequence : option Z) (w : World)
  : option string :=
  let uri := url_parse u in
  if (protocol uri =? "file:")%string then
    files w !! path_resolve (host uri +:+ path uri) (flat_key sequence)
  else if (protocol uri =? "s3:")%string then
    objects w !! (host uri, slice_from (path uri) 1 +:+ flat_key sequence)
  else None.

(** The data object and the state of a target have different names. *)
Definition distinct_names `{Runtime} (u : string) (sequence : option Z) : Prop :=
  let uri := url_parse u in
  path_resolve (host uri +:+ path uri) (flat_key sequence)
    <> path_resolve (host uri +:+ path uri) "state.yaml" /\
  slice_from (path uri) 1 +:+ flat_key sequence
    <> slice_from (path uri) 1 +:+ "state.yaml".

End LegacyRevision.

(** * Properties of the batcher *)

Lemma flush_nil s : flush {| batched := []; sequence := s |} = [].
Proof. reflexivity. Qed.

Lemma flush_nonempty b s :
  b <> [] -> flush {| batched := b; sequence := s |} = [PushVal (s, b)].
Proof. destruct b; [congruence | reflexivity]. Qed.

Lemma consume_items_app st xs ys :
  consume_items st (xs ++ ys) =
  let '(o1, s1) := consume_items st xs in
  let '(o2, s2) := consume_items s1 ys in
  (o1 ++ o2, s2).
Proof.
  revert st. induction xs as [|x xs IH]; intros st; simpl.
  - destruct (consume_items st ys); reflexivity.
  - destruct (consume_step st x) as [o s1].
    rewrite IH.
    destruct (consume_items s1 xs) as [o1 s2].
    destruct (consume_items s2 ys) as [o2 s3].
    rewrite app_assoc. reflexivity.
Qed.

(** Feature changes only grow the pending batch. *)
Lemma consume_items_changes b s fcs :
  consume_items {| batched := b; sequence := s |} (map change fcs) =
  ([], {| batched := b ++ map EvFeatureCollection fcs; sequence := s |}).
Proof.
  revert b. induction fcs as [|fc fcs IH]; intros b; simpl.
  - rewrite app_nil_r. reflexivity.
  - rewrite IH. rewrite <- app_assoc. reflexivity.
Qed.

(** One complete pair, from an empty pending batch. *)
Lemma consume_items_pair s p :
  consume_items {| batched := []; sequence := s |} (pair_stream p) =
  ((if has_changes p then [pair_batch p] else []),
   {| batched := []; sequence := Some (pair_start p) |}).
Proof.
  unfold pair_stream.
  change (start_marker (pair_start p) :: map change (pair_changes p)
            ++ [end_marker (pair_end p)])
    with ([start_marker (pair_start p)]
            ++ map change (pair_changes p) ++ [end_marker (pair_end p)]).
  rewrite consume_items_app. simpl.
  rewrite consume_items_app, consume_items_changes. simpl.
  unfold has_changes, pair_batch, flush. simpl.
  destruct (pair_changes p); reflexivity.
Qed.

Lemma consume_items_pairs s ps :
  consume_items {| batched := []; sequence := s |} (pairs_stream ps) =
  (map pair_batch (List.filter has_changes ps),
   {| batched := [];
      sequence := match last ps with
                  | Some p => Some (pair_start p)
                  | None => s
                  end |}).
Proof.
  revert s. induction ps as [|p ps IH]; intros s.
  - reflexivity.
  - change (pairs_stream (p :: ps)) with (pair_stream p ++ pairs_stream ps).
    rewrite consume_items_app, consume_items_pair, IH.
    f_equal.
    + simpl. destruct (has_changes p); reflexivity.
    + f_equal. rewrite last_cons. destruct (last ps); reflexivity.
Qed.

Lemma last_start_app xs ys :
  last_start (xs ++ ys) = or_else (last_start ys) (last_start xs).
Proof.
  induction xs as [|x xs IH]; simpl.
  - destruct (last_start ys); reflexivity.
  - rewrite IH. destruct (last_start ys), (last_start xs); reflexivity.
Qed.

Lemma status_end_not_start m :
  (status m =? "end")%string = true -> (status m =? "start")%string = false.
Proof.
  intros E. apply String.eqb_eq in E. rewrite E. reflexivity.
Qed.

(** The [sequence] variable after one item. *)
Lemma consume_step_sequence st item :
  sequence (snd (consume_step st item)) =
  or_else (last_start [item]) (sequence st).
Proof.
  destruct item as [err|[m|fc]]; simpl; try reflexivity.
  destruct (status m =? "start")%string, (status m =? "end")%string;
    reflexivity.
Qed.

(** The [sequence] variable holds the number of the last start marker
    consumed. *)
Lemma consume_items_sequence st items :
  sequence (snd (consume_items st items)) =
  or_else (last_start items) (sequence st).
Proof.
  revert st. induction items as [|item rest IH]; intros st.
  - reflexivity.
  - change (item :: rest) with ([item] ++ rest).
    rewrite last_start_app. cbn [consume_items app].
    pose proof (consume_step_sequence st item) as Hs.
    destruct (consume_step st item) as [o s1]. simpl in Hs.
    specialize (IH s1).
    destruct (consume_items s1 rest) as [o2 s2]. simpl in *.
    rewrite IH, Hs.
    destruct (last_start rest); [reflexivity|].
    simpl. reflexivity.
Qed.

(** Between two end markers the handler pushes only the errors it
    receives, and collects the feature changes. *)
Lemma consume_items_no_end st tail :
  forallb (fun item => negb (is_end item)) tail = true ->
  consume_items st tail =
  (stream_errors tail,
   {| batched := batched st ++ feature_changes tail;
      sequence := or_else (last_start tail) (sequence st) |}).
Proof.
  revert st. induction tail as [|item rest IH]; intros st Hno.
  - simpl. rewrite app_nil_r. destruct st; reflexivity.
  - simpl in Hno. apply andb_prop in Hno as [Hitem Hrest].
    change (item :: rest) with ([item] ++ rest).
    rewrite last_start_app. cbn [consume_items app].
    destruct item as [err|[m|fc]]; simpl in Hitem |- *.
    + rewrite (IH _ Hrest). simpl.
      destruct (last_start rest); reflexivity.
    + apply negb_true_iff in Hitem. rewrite Hitem.
      rewrite (IH _ Hrest).
      destruct (status m =? "start")%string; simpl;
        destruct (last_start rest); reflexivity.
    + rewrite (IH _ Hrest). simpl. rewrite <- app_assoc.
      destruct (last_start rest); reflexivity.
Qed.

(** An end marker leaves the pending batch empty. *)
Lemma consume_items_end_batched st pre m :
  (status m =? "end")%string = true ->
  batched (snd (consume_items st (pre ++ [SVal (EvMarker m)]))) = [].
Proof.
  intros E. rewrite consume_items_app.
  destruct (consume_items st pre) as [o1 s1]. simpl.
  rewrite E. reflexivity.
Qed.

(** Every batch pushed while items are consumed was pushed at an end
    marker, with the [sequence] variable of that moment. *)
Lemma consume_items_pushed st items s b :
  In (PushVal (s, b)) (fst (consume_items st items)) ->
  exists pre m post,
    items = pre ++ SVal (EvMarker m) :: post /\
    status m = "end" /\
    s = or_else (last_start pre) (sequence st).
Proof.
  induction items as [|x xs IH] using rev_ind.
  - simpl. intros [].
  - rewrite consume_items_app.
    pose proof (consume_items_sequence st xs) as Hseq.
    destruct (consume_items st xs) as [o1 s1]. simpl in IH, Hseq |- *.
    destruct (consume_step s1 x) as [o2 s2] eqn:Estep. simpl.
    rewrite app_nil_r. intros Hin. apply in_app_or in Hin as [Hin|Hin].
    + destruct (IH Hin) as (pre & m & post & -> & Hm & Hs).
      exists pre, m, (post ++ [x]). rewrite <- app_assoc. auto.
    + destruct x as [err|[m|fc]]; simpl in Estep.
      * inversion Estep; subst. destruct Hin as [Hin|[]]. discriminate.
      * destruct (status m =? "end")%string eqn:E.
        -- rewrite (status_end_not_start m E) in Estep.
           inversion Estep; subst. unfold flush in Hin.
           destruct (0 <? length (batched s1))%nat; [|destruct Hin].
           destruct Hin as [Hin|[]]. inversion Hin; subst.
           exists xs, m, []. apply String.eqb_eq in E. auto.
        -- inversion Estep; subst. destruct Hin.
      * inversion Estep; subst. destruct Hin.
Qed.

(** C1 (as stated, refuted): a complete pair with no feature change between
    its markers is one pair, and the batcher emits no batch for it, so "one
    batch per pair" fails on the stream [start(7), end(7)]. *)
Lemma batcher_one_batch_per_pair_fails :
  ~ (forall ps : list MarkerPair,
       ps <> [] ->
       batch_by_sequence (pairs_stream ps) = map pair_batch ps).
Proof.
  intros Hclaim.
  specialize (Hclaim [ {| pair_start := 7; pair_changes := []; pair_end := 7 |} ]).
  vm_compute in Hclaim.
  assert (Hne : [ {| pair_start := 7; pair_changes := []; pair_end := 7 |} ] <> [])
    by discriminate.
  specialize (Hclaim Hne). discriminate Hclaim.
Qed.

(** C1 (amended): on a stream made of complete start/end pairs the batcher
    emits, in order, exactly one batch for every pair that has at least one
    feature change between its markers and nothing for a pair that has
    none; the batch of a pair carries the number of its start marker and
    holds all and only the feature changes between its two markers, in
    their order in the stream. *)
Theorem batcher_one_batch_per_nonempty_pair (ps : list MarkerPair) :
  batch_by_sequence (pairs_stream ps) =
  map pair_batch (List.filter has_changes ps).
Proof.
  unfold batch_by_sequence, batcher_init.
  rewrite consume_items_pairs. simpl. apply app_nil_r.
Qed.

(** C6: when the stream ends after feature changes that no end marker
    followed, the batcher pushes, after everything it pushed before, exactly
    one more batch: those feature changes, under the number of the last
    start marker of the stream. *)
Theorem batcher_flush_at_end_of_stream (pre tail : list StreamItem) :
  (pre = [] \/
   exists pre' m, pre = pre' ++ [SVal (EvMarker m)] /\ status m = "end") ->
  forallb (fun item => negb (is_end item)) tail = true ->
  feature_changes tail <> [] ->
  batch_by_sequence (pre ++ tail) =
  fst (consume_items batcher_init pre) ++ stream_errors tail
    ++ [PushVal (last_start (pre ++ tail), feature_changes tail)].
Proof.
  intros Hpre Hno Hpending.
  unfold batch_by_sequence.
  rewrite consume_items_app.
  assert (Hb : batched (snd (consume_items batcher_init pre)) = []).
  { destruct Hpre as [->|(pre' & m & -> & Hm)]; [reflexivity|].
    apply consume_items_end_batched. apply String.eqb_eq. exact Hm. }
  pose proof (consume_items_sequence batcher_init pre) as Hs.
  destruct (consume_items batcher_init pre) as [o1 s1]. simpl in Hb, Hs |- *.
  rewrite (consume_items_no_end s1 tail Hno).
  rewrite Hb, Hs. simpl.
  rewrite flush_nonempty by exact Hpending.
  rewrite last_start_app. rewrite <- app_assoc.
  destruct (last_start pre), (last_start tail); reflexivity.
Qed.

Lemma batcher_flush_at_end_of_stream_witness :
  batch_by_sequence
    ([start_marker 4; change {| fc_id := "create"; fc_features := [] |};
      end_marker 4]
     ++ [start_marker 5; change {| fc_id := "delete"; fc_features := [] |}]) =
  [PushVal (Some 4, [EvFeatureCollection {| fc_id := "create"; fc_features := [] |}]);
   PushVal (Some 5, [EvFeatureCollection {| fc_id := "delete"; fc_features := [] |}])].
Proof.
  apply (batcher_flush_at_end_of_stream
           [start_marker 4; change {| fc_id := "create"; fc_features := [] |};
            end_marker 4]
           [start_marker 5; change {| fc_id := "delete"; fc_features := [] |}]).
  - right.
    exists [start_marker 4; change {| fc_id := "create"; fc_features := [] |}],
           {| status := "end"; sequenceNumber := 4 |}.
    split; reflexivity.
  - reflexivity.
  - simpl. discriminate.
Defined.

(** C9: on every stream of errors and events the batcher of the flat,
    uncompressed revision pushes the same list of errors and
    (sequence, batch) pairs as the batcher of the sharded revision. *)
Theorem batcher_revisions_agree (items : list StreamItem) :
  Legacy.batch_by_sequence items = batch_by_sequence items.
Proof.
  unfold Legacy.batch_by_sequence, batch_by_sequence.
  generalize batcher_init as st.
  induction items as [|item rest IH]; intros st.
  - reflexivity.
  - cbn [consume_items].
    destruct item as [err|[m|fc]]; cbn [Legacy.consume consume_step];
      try (rewrite IH; destruct (consume_items _ rest); reflexivity).
    destruct (status m =? "end")%string;
      rewrite IH; destruct (consume_items _ rest);
      [rewrite <- app_assoc|]; reflexivity.
Qed.



(** * Properties of the extraction stream *)

Lemma find_new_lookup features i :
  ExtractionStream.find_new features = Some i ->
  exists feature, features !! i = Some feature /\ feat_id feature = "new".
Proof.
  revert i. induction features as [|f rest IH]; intros i; simpl.
  - discriminate.
  - destruct (feat_id f =? "new")%string eqn:E.
    + intros [= <-]. exists f. split; [reflexivity|].
      apply String.eqb_eq. exact E.
    + destruct (ExtractionStream.find_new rest) as [j|]; [|discriminate].
      simpl. intros [= <-]. apply (IH j). reflexivity.
Qed.

Lemma find_new_alter g features i :
  (forall f, feat_id (g f) = feat_id f) ->
  ExtractionStream.find_new (alter g i features) =
  ExtractionStream.find_new features.
Proof.
  intros Hg. revert i. induction features as [|f rest IH]; intros i.
  - reflexivity.
  - destruct i as [|i].
    + cbn. rewrite Hg. reflexivity.
    + change (alter g (S i) (f :: rest)) with (f :: alter g i rest).
      cbn [ExtractionStream.find_new]. rewrite (IH i). reflexivity.
Qed.

Lemma alter_as_insert {A} (g : A -> A) (l : list A) i x :
  l !! i = Some x -> alter g i l = <[i := g x]> l.
Proof.
  rewrite list_insert_alter. intros Hlook.
  apply list_alter_ext; [|reflexivity].
  intros y Hy. rewrite Hlook in Hy. injection Hy as ->. reflexivity.
Qed.

Lemma find_new_some features f :
  In f features -> feat_id f = "new" ->
  exists i, ExtractionStream.find_new features = Some i.
Proof.
  intros Hin Hid. induction features as [|g rest IH]; [destruct Hin|].
  simpl. destruct (feat_id g =? "new")%string eqn:E; [eauto|].
  destruct Hin as [->|Hin].
  - rewrite Hid in E. discriminate.
  - destruct (IH Hin) as [i ->]. simpl. eauto.
Qed.

(** C3: a marker is pushed as it came.  A feature collection that is
    pushed keeps its action and its features, except that the feature
    [find] selects (the first with id ["new"]) has [properties.visible]
    set to whether the action differs from ["delete"]: it is [false] if and
    only if the action is ["delete"].  A collection is pushed whenever it
    has a feature with id ["new"]. *)
Theorem extraction_visible_iff_not_delete :
  (forall m,
      ExtractionStream._transform (EvMarker m) = Ok (EvMarker m)) /\
  (forall fc out,
      ExtractionStream._transform (EvFeatureCollection fc) = Ok out ->
      exists i before after,
        out = EvFeatureCollection
                {| fc_id := fc_id fc;
                   fc_features := <[i := after]> (fc_features fc) |} /\
        ExtractionStream.find_new (fc_features fc) = Some i /\
        ExtractionStream.find_new (<[i := after]> (fc_features fc)) = Some i /\
        fc_features fc !! i = Some before /\
        feat_id after = "new" /\
        feat_properties after =
          <["visible" := JsBool (negb (fc_id fc =? "delete")%string)]>
            (feat_properties before) /\
        (feat_properties after !! "visible" = Some (JsBool false)
         <-> fc_id fc = "delete")) /\
  (forall fc f,
      In f (fc_features fc) -> feat_id f = "new" ->
      exists out, ExtractionStream._transform (EvFeatureCollection fc) = Ok out).
Proof.
  split; [reflexivity|]. split.
  - intros fc out. unfold ExtractionStream._transform.
    destruct (ExtractionStream.find_new (fc_features fc)) as [i|] eqn:Efind;
      [|discriminate].
    destruct (find_new_lookup _ _ Efind) as (before & Hlook & Hid).
    rewrite (alter_as_insert _ _ _ _ Hlook).
    intros [= <-].
    exists i, before, (ExtractionStream.set_visible
                         (negb (fc_id fc =? "delete")%string) before).
    rewrite <- (alter_as_insert _ _ _ _ Hlook).
    repeat split; try assumption.
    + rewrite find_new_alter; [exact Efind | reflexivity].
    + simpl. rewrite lookup_insert_eq. intros [= Hv].
      apply negb_false_iff in Hv. apply String.eqb_eq. exact Hv.
    + intros Hd. simpl. rewrite lookup_insert_eq, Hd. reflexivity.
  - intros fc f Hin Hid. unfold ExtractionStream._transform.
    destruct (find_new_some _ _ Hin Hid) as [i ->]. eauto.
Qed.

Lemma extraction_visible_iff_not_delete_witness :
  exists out,
    ExtractionStream._transform
      (EvFeatureCollection
         {| fc_id := "delete";
            fc_features := [ {| feat_id := "old"; feat_properties := ∅ |};
                             {| feat_id := "new"; feat_properties := ∅ |} ] |})
    = Ok out.
Proof.
  apply (proj2 (proj2 extraction_visible_iff_not_delete)
           {| fc_id := "delete";
              fc_features := [ {| feat_id := "old"; feat_properties := ∅ |};
                               {| feat_id := "new"; feat_properties := ∅ |} ] |}
           {| feat_id := "new"; feat_properties := ∅ |}).
  - simpl. right. left. reflexivity.
  - reflexivity.
Defined.

(** * Properties of the sequence and timestamp conversions *)

Lemma minutes_since_start (n : Z) :
  Qceiling ((inject_Z ((n * 60 + 1347432900) * 1000) / 1000 - 1347432900) / 60)%Q
  = n.
Proof.
  rewrite <- (Qceiling_Z n) at 2. apply Qceiling_comp.
  rewrite !inject_Z_mult, inject_Z_plus, inject_Z_mult.
  change (inject_Z 60) with 60%Q. change (inject_Z 1000) with 1000%Q.
  change (inject_Z 1347432900) with 1347432900%Q.
  field.
Qed.

Lemma sequenceToTimestamp_valid (n : Z) :
  0 <= n <= last_dated_sequence ->
  sequenceToTimestamp n = ValidDate ((n * 60 + 1347432900) * 1000).
Proof.
  unfold last_dated_sequence, sequenceToTimestamp, new_Date. intros Hn.
  destruct (Z.leb_spec (Z.abs ((n * 60 + 1347432900) * 1000)) 8640000000000000);
    [reflexivity | lia].
Qed.

(** C5 (as stated, refuted): the timestamp of sequence 143977542786 lies
    beyond the last instant a [Date] can hold, so [sequenceToTimestamp]
    returns an Invalid Date and converting it back gives [NaN], not the
    sequence number. *)
Lemma timestamp_roundtrip_fails_beyond_date_range :
  ~ (forall (R : Runtime) (n : Z),
       0 <= n ->
       timestampToSequence (JsDate (sequenceToTimestamp n)) = Some n).
Proof.
  intros Hclaim.
  specialize (Hclaim Demo.runtime 143977542786 ltac:(lia)).
  vm_compute in Hclaim. discriminate Hclaim.
Qed.

(** C5 (amended): for every sequence number [n] from 0 up to 143977542785,
    the last one whose timestamp [(n * 60 + 1347432900) * 1000]
    milliseconds is within the range of a [Date],
    [timestampToSequence(sequenceToTimestamp(n))] is [n]. *)
Theorem timestamp_roundtrip `{Runtime} (n : Z) :
  0 <= n <= last_dated_sequence ->
  timestampToSequence (JsDate (sequenceToTimestamp n)) = Some n.
Proof.
  intros Hn. rewrite (sequenceToTimestamp_valid n Hn).
  unfold timestampToSequence, Date_parse.
  rewrite Z.div_mul by lia.
  rewrite minutes_since_start. reflexivity.
Qed.

Lemma timestamp_roundtrip_witness :
  @timestampToSequence Demo.runtime (JsDate (sequenceToTimestamp 42)) = Some 42.
Proof.
  apply (@timestamp_roundtrip Demo.runtime 42).
  unfold last_dated_sequence. lia.
Defined.

(** * Properties of the object key *)

Lemma string_repeat_zero_shift j s :
  string_repeat "0" j +:+ String "0"%char s = string_repeat "0" (S j) +:+ s.
Proof.
  induction j as [|j IH]; [reflexivity|].
  change (string_repeat "0" (S j)) with ("0" +:+ string_repeat "0" j).
  change (("0" +:+ string_repeat "0" j) +:+ String "0"%char s)
    with (String "0"%char (string_repeat "0" j +:+ String "0"%char s)).
  rewrite IH. reflexivity.
Qed.

Lemma string_repeat_zero_length j : String.length (string_repeat "0" j) = j.
Proof. induction j as [|j IH]; simpl; [reflexivity | f_equal; exact IH]. Qed.

Lemma substring_whole s : substring 0 (String.length s) s = s.
Proof. induction s as [|c s IH]; simpl; [reflexivity | f_equal; exact IH]. Qed.

Lemma fixed_digits_zero k s :
  fixed_digits k 0%N s = string_repeat "0" k +:+ s.
Proof.
  revert s. induction k as [|k IH]; intros s; [reflexivity|].
  cbn [fixed_digits]. change (0 / 10)%N with 0%N. change (0 mod 10)%N with 0%N.
  rewrite IH. apply string_repeat_zero_shift.
Qed.

(** Padding the printed number with zeros gives its fixed-width digits. *)
Lemma fixed_digits_pretty k x s :
  (x < 10 ^ N.of_nat k)%N ->
  exists j,
    fixed_digits k x s = string_repeat "0" j +:+ pretty_N_go x s /\
    (String.length (pretty_N_go x s) + j = k + String.length s)%nat.
Proof.
  revert x s. induction k as [|k IH]; intros x s Hx.
  - assert (x = 0%N) as -> by (simpl in Hx; lia).
    exists O. rewrite pretty_N_go_0. split; [reflexivity | lia].
  - destruct (N.eq_dec x 0%N) as [->|Hpos].
    + exists (S k). rewrite fixed_digits_zero, pretty_N_go_0.
      split; [reflexivity | lia].
    + rewrite pretty_N_go_step by lia. cbn [fixed_digits].
      destruct (IH (x / 10)%N (String (pretty_N_char (x mod 10)%N) s)) as (j & Hj & Hlen).
      { apply N.Div0.div_lt_upper_bound.
        rewrite Nat2N.inj_succ, N.pow_succ_r' in Hx. exact Hx. }
      exists j. split; [exact Hj|]. simpl in Hlen. lia.
Qed.

Lemma padStart_pretty_N (x : N) :
  (0 < x < 10 ^ 9)%N ->
  padStart (pretty_N_go x "") 9 "0" = fixed_digits 9 x "".
Proof.
  intros Hx.
  destruct (fixed_digits_pretty 9 x "") as (j & Hj & Hlen); [simpl; lia|].
  simpl in Hlen. rewrite Hj. unfold padStart.
  destruct (9 <=? String.length (pretty_N_go x ""))%nat eqn:E.
  - apply Nat.leb_le in E. assert (j = O) as -> by lia. reflexivity.
  - apply Nat.leb_gt in E. cbn [orb String.eqb Ascii.eqb Bool.eqb].
    replace (9 - String.length (pretty_N_go x ""))%nat with j by lia.
    rewrite <- (string_repeat_zero_length j) at 1.
    rewrite substring_whole. reflexivity.
Qed.

(** [sequence.toString().padStart(9, 0)] for a sequence below 10^9. *)
Lemma padStart_sequence (n : Z) :
  0 <= n < 10 ^ 9 ->
  padStart (Number_toString n) 9 "0" = fixed_digits 9 (Z.to_N n) "".
Proof.
  intros Hn. destruct n as [|p|p]; [reflexivity | | lia].
  change (Number_toString (Z.pos p)) with (pretty_N_go (N.pos p) "").
  apply padStart_pretty_N. simpl. lia.
Qed.

Lemma fixed_digits_decimal k i n s :
  0 <= n ->
  fixed_digits k (Z.to_N (n / 10 ^ Z.of_nat i)) s = digits_upto i k n s.
Proof.
  intros Hn. revert i s. induction k as [|k IH]; intros i s; [reflexivity|].
  cbn [fixed_digits digits_upto].
  assert (Hpow : 0 < 10 ^ Z.of_nat i) by (apply Z.pow_pos_nonneg; lia).
  assert (Hq : 0 <= n / 10 ^ Z.of_nat i) by (apply Z.div_pos; lia).
  replace (Z.to_N (n / 10 ^ Z.of_nat i) / 10)%N
    with (Z.to_N (n / 10 ^ Z.of_nat (S i))).
  - rewrite IH. unfold decimal_digit.
    rewrite Z2N.inj_mod by lia. reflexivity.
  - rewrite Nat2Z.inj_succ, Z.pow_succ_r by lia.
    rewrite (Z.mul_comm 10), <- Z.div_div by lia.
    rewrite Z2N.inj_div by lia. reflexivity.
Qed.

Lemma data_key_digits (n : Z) :
  0 <= n < 10 ^ 9 ->
  data_key n =
  digits3 8 7 6 n +:+ "/" +:+ digits3 5 4 3 n +:+ "/" +:+ digits3 2 1 0 n
    +:+ ".json.gz".
Proof.
  intros Hn. unfold data_key, sequencePath.
  rewrite (padStart_sequence n Hn).
  replace (Z.to_N n) with (Z.to_N (n / 10 ^ Z.of_nat 0))
    by (simpl; rewrite Z.div_1_r; reflexivity).
  rewrite fixed_digits_decimal by lia.
  reflexivity.
Qed.

(** C7: for a sequence below 10^9 the key of the data object is the nine
    decimal digits of the sequence (zeros in front), in three groups of
    three joined by ["/"], followed by [".json.gz"]; for sequence 42 it is
    ["000/000/042.json.gz"]; and the feed [start(42), create(A), delete(B),
    end(42)] gives the writer exactly one batch, for sequence 42, holding A
    with [visible: true] and then B with [visible: false]. *)
Theorem sharded_key_and_scenario :
  (forall n : Z,
      0 <= n < 10 ^ 9 ->
      data_key n =
      digits3 8 7 6 n +:+ "/" +:+ digits3 5 4 3 n +:+ "/" +:+ digits3 2 1 0 n
        +:+ ".json.gz") /\
  data_key 42 = "000/000/042.json.gz" /\
  (forall A B_old B : gmap string JsValue,
      batches_of
        [ EvMarker {| status := "start"; sequenceNumber := 42 |};
          EvFeatureCollection
            {| fc_id := "create"; fc_features := [new_feature A] |};
          EvFeatureCollection
            {| fc_id := "delete";
               fc_features := [old_feature B_old; new_feature B] |};
          EvMarker {| status := "end"; sequenceNumber := 42 |} ] =
      ([ PushVal
           (Some 42,
            [ EvFeatureCollection
                {| fc_id := "create";
                   fc_features :=
                     [new_feature (<["visible" := JsBool true]> A)] |};
              EvFeatureCollection
                {| fc_id := "delete";
                   fc_features :=
                     [old_feature B_old;
                      new_feature (<["visible" := JsBool false]> B)] |} ]) ],
       None)).
Proof.
  split; [exact data_key_digits|]. split; reflexivity.
Qed.

Lemma sharded_key_and_scenario_witness :
  data_key 123456789 = "123/456/789.json.gz".
Proof.
  rewrite (proj1 sharded_key_and_scenario 123456789) by lia.
  reflexivity.
Defined.

(** * Properties of the starting position *)

Example demo_url_file :
  Demo.url_parse "file://./" = {| protocol := "file:"; host := "."; path := "/" |}.
Proof. reflexivity. Qed.

Example demo_url_s3 :
  Demo.url_parse "s3://bucket/augdiffs/"
  = {| protocol := "s3:"; host := "bucket"; path := "/augdiffs/" |}.
Proof. reflexivity. Qed.

Example demo_resume :
  fst (@main_initialSequence Demo.runtime (no_override None) (Demo.world []))
  = Ok (JsNumber 100).
Proof. vm_compute. reflexivity. Qed.

Section Position.

Context `{Runtime}.

Lemma getCurrentSequence_stored u w text fields N :
  next_fault w = None ->
  stored_state u w = Some text ->
  YAML_parse text = Ok (YamlMap fields) ->
  fields !! "sequence" = Some (JsNumber N) ->
  fst (getCurrentSequence u w) = Ok (JsNumber (N + 1)).
Proof.
  intros Hfault Hstored Hparse Hseq.
  unfold getCurrentSequence, stored_state in *.
  destruct (protocol (url_parse u) =? "file:")%string.
  - unfold mbind, IO_bind, readFile, fetch. rewrite Hfault, Hstored.
    unfold settle. rewrite Hparse. simpl. rewrite Hseq. reflexivity.
  - destruct (protocol (url_parse u) =? "s3:")%string; [|discriminate].
    unfold mbind, IO_bind, getObject, fetch. rewrite Hfault, Hstored.
    unfold settle. rewrite Hparse. simpl. rewrite Hseq. reflexivity.
Qed.

(** An explicit sequence other than zero is taken as it is, and nothing is
    read. *)
Lemma main_initialSequence_explicit options w n :
  initialSequence options = JsNumber n ->
  n <> 0 ->
  main_initialSequence options w = (Ok (JsNumber n), w).
Proof.
  intros Hi Hn. unfold main_initialSequence. rewrite Hi. simpl.
  destruct (Z.eqb_spec n 0); [contradiction | reflexivity].
Qed.

(** An explicit sequence of zero is treated as no sequence at all. *)
Lemma main_initialSequence_zero options w :
  initialSequence options = JsNumber 0 ->
  main_initialSequence options w =
  main_initialSequence
    {| initialSequence := JsUndefined;
       timestamp := timestamp options;
       target := target options |} w.
Proof.
  intros Hi. unfold main_initialSequence. rewrite Hi. reflexivity.
Qed.

End Position.



(** C8 (the code at the failing input): with [-i 0] and no timestamp, on a
    target whose state holds sequence 99, the initial sequence is 100, not
    0, and the state file has been read. *)
Theorem explicit_sequence_zero_is_ignored :
  let options :=
    {| initialSequence := JsNumber 0; timestamp := JsUndefined; target := None |} in
  let '(initial, w) := @main_initialSequence Demo.runtime options (Demo.world []) in
  initial = Ok (JsNumber 100) /\
  log w = [(fs_readFile "./state.yaml", None)].
Proof. vm_compute. split; reflexivity. Qed.

(** * Properties of the writer *)

Section Writer.

Context `{Runtime}.

Lemma perform_each_two a b w :
  try_catch (_ ← perform a; _ ← perform b; mret None)
            (fun err => mret (Some err)) w
  = perform_each [a; b] w.
Proof.
  unfold try_catch, mbind, IO_bind, mret, IO_ret. simpl.
  destruct (perform a w) as [[[]|e] w1]; [|reflexivity].
  destruct (perform b w1) as [[[]|e] w2]; reflexivity.
Qed.

Lemma perform_each_three a b c w :
  try_catch (_ ← perform a; _ ← perform b; _ ← perform c; mret None)
            (fun err => mret (Some err)) w
  = perform_each [a; b; c] w.
Proof.
  unfold try_catch, mbind, IO_bind, mret, IO_ret. simpl.
  destruct (perform a w) as [[[]|e] w1]; [|reflexivity].
  destruct (perform b w1) as [[[]|e] w2]; [|reflexivity].
  destruct (perform c w2) as [[[]|e] w3]; reflexivity.
Qed.

(** The writer, case by case. *)
Lemma writer_cases targetURI sequence batch w :
  writer targetURI (sequence, batch) w =
  match sequenceToTimestamp (ToNumber_sequence sequence) with
  | InvalidDate => (Throw "RangeError: Invalid time value", w)
  | ValidDate ms =>
      let w1 :=
        after_line (ToString_sequence sequence +:+ " (" +:+ Date_toISOString_ms ms
                    +:+ "): " +:+ pretty (length batch)) w in
      match sequence with
      | None => (Throw "TypeError: Cannot read property 'toString' of null", w1)
      | Some n =>
          match writer_calls targetURI n batch (now w) with
          | [] => (Ok (Some ("Unsupported protocol: "
                             +:+ protocol (url_parse targetURI))), w1)
          | calls => perform_each calls w1
          end
      end
  end.
Proof.
  unfold writer, writer_calls.
  unfold mbind at 1. unfold IO_bind at 1. unfold settle at 1.
  destruct (sequenceToTimestamp (ToNumber_sequence sequence)) as [ms|];
    [|reflexivity].
  cbn [Date_toISOString].
  unfold mbind at 1. unfold IO_bind at 1. unfold console_log at 1.
  fold (after_line (ToString_sequence sequence +:+ " (" +:+ Date_toISOString_ms ms
                    +:+ "): " +:+ pretty (length batch)) w).
  unfold mbind at 1. unfold IO_bind at 1. unfold now_toISOString at 1.
  unfold mbind at 1. unfold IO_bind at 1. unfold settle at 1.
  destruct sequence as [n|]; [|reflexivity].
  cbv zeta.
  destruct (protocol (url_parse targetURI) =? "s3:")%string.
  - rewrite perform_each_two. reflexivity.
  - destruct (protocol (url_parse targetURI) =? "file:")%string.
    + rewrite perform_each_three. reflexivity.
    + reflexivity.
Qed.

Lemma has_slash_app a b : has_slash (a +:+ b) = has_slash a || has_slash b.
Proof.
  induction a as [|c a IH]; [reflexivity|].
  change (String c a +:+ b) with (String c (a +:+ b)).
  cbn [has_slash]. rewrite IH. apply orb_assoc.
Qed.

Lemma append_cancel_l p a b : p +:+ a = p +:+ b -> a = b.
Proof.
  induction p as [|c p IH]; [trivial|].
  change (String c p +:+ a) with (String c (p +:+ a)).
  change (String c p +:+ b) with (String c (p +:+ b)).
  intros [= E]. exact (IH E).
Qed.

(** The key of a data object is never the key of the state object. *)
Lemma data_key_not_state p n : (p +:+ data_key n =? p +:+ "state.yaml")%string = false.
Proof.
  apply String.eqb_neq. intros E. apply append_cancel_l in E.
  apply (f_equal has_slash) in E. unfold data_key, sequencePath in E.
  rewrite !has_slash_app in E. cbn in E.
  rewrite !orb_true_r in E. discriminate E.
Qed.

Lemma s3_not_file u :
  (protocol (url_parse u) =? "s3:")%string = true ->
  (protocol (url_parse u) =? "file:")%string = false.
Proof. intros E. apply String.eqb_eq in E. rewrite E. reflexivity. Qed.

Lemma data_put_is_data u n batch :
  (protocol (url_parse u) =? "s3:")%string = true ->
  is_data_write u n (data_put u n batch) = true.
Proof.
  intros E. unfold is_data_write, data_put. rewrite E, !String.eqb_refl.
  reflexivity.
Qed.

Lemma data_put_not_state u n batch :
  is_state_write u (data_put u n batch) = false.
Proof.
  unfold is_state_write, data_put. rewrite data_key_not_state.
  apply andb_false_r.
Qed.

Lemma state_put_is_state u n last_run :
  (protocol (url_parse u) =? "s3:")%string = true ->
  is_state_write u (state_put u n last_run) = true.
Proof.
  intros E. unfold is_state_write, state_put. rewrite E, !String.eqb_refl.
  reflexivity.
Qed.

Lemma state_put_not_data u n m last_run :
  is_data_write u n (state_put u m last_run) = false.
Proof.
  unfold is_data_write, state_put.
  rewrite (String.eqb_sym (slice_from (path (url_parse u)) 1 +:+ "state.yaml")).
  rewrite data_key_not_state.
  apply andb_false_r.
Qed.

Lemma data_file_is_data u n batch :
  (protocol (url_parse u) =? "file:")%string = true ->
  is_data_write u n (data_file u n batch) = true.
Proof.
  intros E. unfold is_data_write, data_file. rewrite E, String.eqb_refl.
  reflexivity.
Qed.

Lemma data_file_not_state u n batch :
  distinct_files u n -> is_state_write u (data_file u n batch) = false.
Proof.
  intros Hd. unfold is_state_write, data_file.
  apply andb_false_iff. right. apply String.eqb_neq. exact Hd.
Qed.

Lemma state_file_is_state u n last_run :
  (protocol (url_parse u) =? "file:")%string = true ->
  is_state_write u (state_file u n last_run) = true.
Proof.
  intros E. unfold is_state_write, state_file. rewrite E, String.eqb_refl.
  reflexivity.
Qed.

Lemma state_file_not_data u n last_run :
  distinct_files u n -> is_data_write u n (state_file u n last_run) = false.
Proof.
  intros Hd. unfold is_data_write, state_file.
  apply andb_false_iff. right. apply String.eqb_neq.
  intros E. apply Hd. symmetry. exact E.
Qed.

Lemma publish_step targetURI sb rest w :
  publish targetURI (PushVal sb :: rest) w =
  match writer targetURI sb w with
  | (Ok None, w') => publish targetURI rest w'
  | (Ok (Some err), w') => (Failed err, w')
  | (Throw err, w') => (Failed err, w')
  end.
Proof. reflexivity. Qed.

End Writer.

Ltac split_log :=
  repeat match goal with
    | E : ?pre ++ _ :: _ = _ |- _ =>
        is_var pre; destruct pre; simpl in E; inversion E; subst; clear E
    | E : _ = ?pre ++ _ :: _ |- _ => is_var pre; symmetry in E
    | E : _ :: _ = _ :: _ |- _ => inversion E; subst; clear E
    | E : _ :: _ = [] |- _ => discriminate E
    | E : [] = _ :: _ |- _ => discriminate E
    | E : In _ (_ :: _) |- _ =>
        destruct E as [E|E]; [inversion E; subst; clear E|]
    | E : In _ [] |- _ => destruct E
    end.

Ltac store :=
  unfold stored_state;
  repeat match goal with
    | E : (protocol _ =? _)%string = _ |- _ => rewrite E
    end;
  simpl;
  rewrite ?lookup_insert_eq;
  try reflexivity;
  rewrite ?lookup_insert_ne by (auto; congruence);
  try reflexivity.

(** C2: in every call of the writer, a call that writes the state object
    comes after a completed write of the data object of the same sequence;
    a call that fails is the last call of the invocation (nothing is tried
    again) and its error is what the callback receives; when the write of
    the data object fails no call writes the state object, and whenever the
    callback does not report success the stored state is what it was; the
    callback reports success only after both writes have completed; and
    unless it does, the run ends there with that error, in the world the
    failed invocation left, so that no later batch is written. *)
Theorem state_only_after_data `{Runtime}
    (targetURI : string) (sequence : option Z) (batch : list Event)
    (rest : list Emitted) (w : World) :
  (forall n, sequence = Some n -> distinct_files targetURI n) ->
  let '(r, w') := writer targetURI (sequence, batch) w in
  exists added,
    log w' = log w ++ added /\
    stored_state targetURI w' =
      match r with
      | Ok None => Some (YAML_stringify (now w) sequence)
      | _ => stored_state targetURI w
      end /\
    (forall pre eff res post,
        added = pre ++ (eff, res) :: post ->
        is_state_write targetURI eff = true ->
        exists n d,
          sequence = Some n /\ is_data_write targetURI n d = true /\
          In (d, None) pre) /\
    (forall pre eff err post,
        added = pre ++ (eff, Some err) :: post ->
        post = [] /\ r = Ok (Some err)) /\
    (forall n d err eff res,
        sequence = Some n -> is_data_write targetURI n d = true ->
        In (d, Some err) added -> In (eff, res) added ->
        is_state_write targetURI eff = false) /\
    (r = Ok None ->
        exists n d s pre,
          sequence = Some n /\ is_data_write targetURI n d = true /\
          is_state_write targetURI s = true /\
          added = pre ++ [(d, None); (s, None)]) /\
    match r with
    | Ok None =>
        publish targetURI (PushVal (sequence, batch) :: rest) w
        = publish targetURI rest w'
    | Ok (Some err) | Throw err =>
        publish targetURI (PushVal (sequence, batch) :: rest) w = (Failed err, w')
    end.
Proof.
  intros Hdistinct. rewrite publish_step.
  assert (Hkeys : forall n p, (host (url_parse targetURI), p +:+ data_key n)
                        <> (host (url_parse targetURI), p +:+ "state.yaml")).
  { intros n p [= E]. pose proof (data_key_not_state p n) as Hne.
    apply String.eqb_neq in Hne. contradiction. }
  destruct (writer targetURI (sequence, batch) w) as [r w'] eqn:Ew.
  rewrite writer_cases in Ew.
  destruct (sequenceToTimestamp (ToNumber_sequence sequence)) as [ms|].
  2:{ inversion Ew; subst. exists []. rewrite app_nil_r.
      repeat split; intros; split_log; try discriminate; try reflexivity. }
  cbv zeta in Ew.
  destruct sequence as [n|].
  2:{ inversion Ew; subst. exists []. rewrite app_nil_r.
      repeat split; intros; split_log; try discriminate; try reflexivity. }
  specialize (Hdistinct n eq_refl).
  unfold writer_calls in Ew.
  destruct (protocol (url_parse targetURI) =? "s3:")%string eqn:Es3.
  - pose proof (s3_not_file targetURI Es3) as Enf.
    pose proof (data_put_is_data targetURI n batch Es3) as Hdd.
    pose proof (data_put_not_state targetURI n batch) as Hds.
    pose proof (state_put_is_state targetURI n (now w) Es3) as Hss.
    pose proof (state_put_not_data targetURI n n (now w)) as Hsd.
    unfold perform_each, perform in Ew.
    destruct (next_fault _) as [e1|] in Ew.
    + inversion Ew; subst.
      exists [(data_put targetURI n batch, Some e1)].
      split; [reflexivity|]. split; [store|].
      repeat split; intros; split_log; try discriminate; try congruence; try reflexivity.
    + destruct (next_fault _) as [e2|] in Ew.
      * inversion Ew; subst.
        exists [(data_put targetURI n batch, None);
                (state_put targetURI n (now w), Some e2)].
        split; [simpl; rewrite <- app_assoc; reflexivity|].
        split; [store|].
        repeat split; intros; split_log; try discriminate; try congruence; try reflexivity.
        all: eauto 10 using in_eq.
      * inversion Ew; subst.
        exists [(data_put targetURI n batch, None);
                (state_put targetURI n (now w), None)].
        split; [simpl; rewrite <- app_assoc; reflexivity|].
        split; [store|].
        repeat split; intros; split_log; try discriminate; try congruence; try reflexivity.
        all: eauto 10 using in_eq.
        exists n, (data_put targetURI n batch), (state_put targetURI n (now w)), [].
        auto.
  - destruct (protocol (url_parse targetURI) =? "file:")%string eqn:Efile.
    + pose proof (data_file_is_data targetURI n batch Efile) as Hdd.
      pose proof (data_file_not_state targetURI n batch Hdistinct) as Hds.
      pose proof (state_file_is_state targetURI n (now w) Efile) as Hss.
      pose proof (state_file_not_data targetURI n (now w) Hdistinct) as Hsd.
      assert (Hmd : is_data_write targetURI n (data_dir targetURI n) = false)
        by reflexivity.
      assert (Hms : is_state_write targetURI (data_dir targetURI n) = false)
        by reflexivity.
      unfold perform_each, perform in Ew.
      destruct (next_fault _) as [e1|] in Ew.
      * inversion Ew; subst.
        exists [(data_dir targetURI n, Some e1)].
        split; [reflexivity|]. split; [store|].
        repeat split; intros; split_log; try discriminate; try congruence;
          try reflexivity.
      * destruct (next_fault _) as [e2|] in Ew.
        -- inversion Ew; subst.
           exists [(data_dir targetURI n, None);
                   (data_file targetURI n batch, Some e2)].
           split; [simpl; rewrite <- app_assoc; reflexivity|].
           split; [store|].
           repeat split; intros; split_log; try discriminate; try congruence;
             try reflexivity.
        -- destruct (next_fault _) as [e3|] in Ew.
           ++ inversion Ew; subst.
              exists [(data_dir targetURI n, None);
                      (data_file targetURI n batch, None);
                      (state_file targetURI n (now w), Some e3)].
              split; [simpl; rewrite <- !app_assoc; reflexivity|].
              split; [store|].
              repeat split; intros; split_log; try discriminate; try congruence;
                try reflexivity.
              all: eauto 10 using in_eq, in_cons.
           ++ inversion Ew; subst.
              exists [(data_dir targetURI n, None);
                      (data_file targetURI n batch, None);
                      (state_file targetURI n (now w), None)].
              split; [simpl; rewrite <- !app_assoc; reflexivity|].
              split; [store|].
              repeat split; intros; split_log; try discriminate; try congruence;
                try reflexivity.
              all: eauto 10 using in_eq, in_cons.
              exists n, (data_file targetURI n batch),
                (state_file targetURI n (now w)), [(data_dir targetURI n, None)].
              auto.
    + inversion Ew; subst. exists []. rewrite app_nil_r.
      repeat split; intros; split_log; try discriminate; try reflexivity.
Qed.

Lemma state_only_after_data_witness :
  exists added,
    log (snd (@writer Demo.runtime "file://./" (Some 42, [])
                (Demo.world [None; Some "EIO: write failed"])))
    = added /\
    forall eff res,
      In (eff, res) added -> @is_state_write Demo.runtime "file://./" eff = false.
Proof.
  pose proof (@state_only_after_data Demo.runtime "file://./" (Some 42) [] []
                (Demo.world [None; Some "EIO: write failed"])) as Hthm.
  assert (Hd : forall n, Some 42 = Some n ->
                         @distinct_files Demo.runtime "file://./" n).
  { intros n [= <-]. unfold distinct_files. vm_compute. discriminate. }
  specialize (Hthm Hd).
  destruct (@writer Demo.runtime "file://./" (Some 42, [])
              (Demo.world [None; Some "EIO: write failed"])) as [r w'] eqn:Ew.
  destruct Hthm as (added & Hlog & _ & _ & _ & Hnostate & _).
  exists added. split; [exact Hlog|].
  intros eff res Hin.
  apply (Hnostate 42
           (fs_writeFile "./000/000/042.json.gz" "gzip()")
           "EIO: write failed" eff res eq_refl); [reflexivity| |exact Hin].
  vm_compute in Ew. injection Ew as _ <-. simpl in Hlog. subst added.
  right. left. reflexivity.
Defined.

(** The run of section 8 of the design on the small runtime: started with
    [-i 42] on the default target, the feed [start(42), create, delete,
    end(42)] makes the directory, writes the data object and then the
    state, and the process resolves. *)
Example demo_main_scenario :
  let options :=
    {| initialSequence := JsNumber 42; timestamp := JsUndefined; target := None |} in
  let feed (_ : JsValue) :=
    [ EvMarker {| status := "start"; sequenceNumber := 42 |};
      EvFeatureCollection {| fc_id := "create"; fc_features := [new_feature ∅] |};
      EvFeatureCollection
        {| fc_id := "delete"; fc_features := [old_feature ∅; new_feature ∅] |};
      EvMarker {| status := "end"; sequenceNumber := 42 |} ] in
  let '(exit, w) := @main Demo.runtime options feed (Demo.world []) in
  exit = Resolved /\
  log w =
    [ (fs_mkdirs "./000/000", None);
      (fs_writeFile "./000/000/042.json.gz"
         ("gzip({create}" +:+ newline +:+ "{delete}" +:+ newline +:+ ")"), None);
      (fs_writeFile "./state.yaml"
         (Demo.YAML_stringify "2019-01-01T00:01:00.000Z" (Some 42)), None) ] /\
  @stored_state Demo.runtime "file://./" w
    = Some (Demo.YAML_stringify "2019-01-01T00:01:00.000Z" (Some 42)).
Proof. vm_compute. repeat split; reflexivity. Qed.

(** * Further properties of the batcher *)

Lemma emitted_items_app xs ys :
  emitted_items (xs ++ ys) = emitted_items xs ++ emitted_items ys.
Proof.
  induction xs as [|[err|sb] xs IH]; simpl; [reflexivity | exact IH |].
  rewrite IH. apply app_assoc.
Qed.

Lemma emitted_errors_app xs ys :
  emitted_errors (xs ++ ys) = emitted_errors xs ++ emitted_errors ys.
Proof.
  induction xs as [|[err|sb] xs IH]; simpl; [reflexivity | | exact IH].
  rewrite IH. reflexivity.
Qed.

Lemma emitted_batches_app xs ys :
  emitted_batches (xs ++ ys) = emitted_batches xs ++ emitted_batches ys.
Proof.
  induction xs as [|[err|sb] xs IH]; simpl; [reflexivity | exact IH |].
  rewrite IH. reflexivity.
Qed.

Lemma flush_items st : emitted_items (flush st) = batched st.
Proof.
  unfold flush. destruct (batched st) as [|x b]; [reflexivity|].
  simpl. rewrite app_nil_r. reflexivity.
Qed.

Lemma flush_errors st : emitted_errors (flush st) = [].
Proof. unfold flush. destruct (0 <? length (batched st))%nat; reflexivity. Qed.

Lemma flush_batches_nonempty st :
  Forall (fun sb : option Z * list Event => snd sb <> []) (emitted_batches (flush st)).
Proof.
  unfold flush. destruct (batched st) as [|x b] eqn:E; simpl; constructor.
  - simpl. discriminate.
  - constructor.
Qed.

(** What one item adds to the feature changes pushed or pending. *)
Lemma consume_step_items st item :
  emitted_items (fst (consume_step st item)) ++ batched (snd (consume_step st item))
  = batched st ++ feature_changes [item].
Proof.
  destruct item as [err|[m|fc]]; simpl.
  - rewrite app_nil_r. reflexivity.
  - destruct (status m =? "start")%string, (status m =? "end")%string; simpl;
      rewrite ?flush_items, ?app_nil_r; reflexivity.
  - reflexivity.
Qed.

Lemma feature_changes_cons item rest :
  feature_changes (item :: rest) = feature_changes [item] ++ feature_changes rest.
Proof. destruct item as [err|[m|fc]]; reflexivity. Qed.

Lemma consume_items_items st items :
  emitted_items (fst (consume_items st items)) ++ batched (snd (consume_items st items))
  = batched st ++ feature_changes items.
Proof.
  revert st. induction items as [|item rest IH]; intros st.
  - simpl. rewrite app_nil_r. reflexivity.
  - cbn [consume_items].
    pose proof (consume_step_items st item) as Hstep.
    destruct (consume_step st item) as [o s1]. simpl in Hstep.
    specialize (IH s1).
    destruct (consume_items s1 rest) as [o2 s2]. cbn [fst snd] in IH |- *.
    rewrite (feature_changes_cons item rest).
    rewrite emitted_items_app, <- app_assoc, IH, app_assoc, Hstep.
    rewrite <- app_assoc. reflexivity.
Qed.

(** X1: on a stream that ends, the batches pushed, put end to end, are
    exactly the feature changes of the stream, each once and in the order
    of the stream: the batcher loses nothing and repeats nothing. *)
Theorem batcher_conserves_feature_changes (items : list StreamItem) :
  emitted_items (batch_by_sequence items) = feature_changes items.
Proof.
  unfold batch_by_sequence.
  pose proof (consume_items_items batcher_init items) as Hc.
  destruct (consume_items batcher_init items) as [out st]. simpl in Hc.
  rewrite emitted_items_app, flush_items. exact Hc.
Qed.

Lemma consume_step_batches_nonempty st item :
  Forall (fun sb : option Z * list Event => snd sb <> [])
         (emitted_batches (fst (consume_step st item))).
Proof.
  destruct item as [err|[m|fc]]; simpl; try constructor.
  destruct (status m =? "end")%string; simpl;
    [apply flush_batches_nonempty | constructor].
Qed.

Lemma consume_items_batches_nonempty st items :
  Forall (fun sb : option Z * list Event => snd sb <> [])
         (emitted_batches (fst (consume_items st items))).
Proof.
  revert st. induction items as [|item rest IH]; intros st; [constructor|].
  cbn [consume_items].
  pose proof (consume_step_batches_nonempty st item) as Hstep.
  destruct (consume_step st item) as [o s1]. simpl in Hstep.
  specialize (IH s1). destruct (consume_items s1 rest) as [o2 s2].
  simpl in IH |- *. rewrite emitted_batches_app.
  apply Forall_app. split; assumption.
Qed.

(** X2: the batcher never pushes an empty batch, neither at an end marker
    nor at the end of the stream. *)
Theorem batcher_never_pushes_empty_batch (items : list StreamItem) :
  Forall (fun sb : option Z * list Event => snd sb <> [])
         (emitted_batches (batch_by_sequence items)).
Proof.
  unfold batch_by_sequence.
  pose proof (consume_items_batches_nonempty batcher_init items) as Hc.
  destruct (consume_items batcher_init items) as [out st]. simpl in Hc.
  rewrite emitted_batches_app. apply Forall_app.
  split; [exact Hc | apply flush_batches_nonempty].
Qed.

Lemma consume_items_errors st items :
  emitted_errors (fst (consume_items st items)) = stream_errors items.
Proof.
  revert st. induction items as [|item rest IH]; intros st; [reflexivity|].
  cbn [consume_items].
  destruct (consume_step st item) as [o s1] eqn:Estep.
  specialize (IH s1). destruct (consume_items s1 rest) as [o2 s2].
  simpl in IH |- *. rewrite emitted_errors_app, IH.
  destruct item as [err|[m|fc]]; simpl in Estep.
  - injection Estep as <- <-. reflexivity.
  - destruct (status m =? "end")%string; injection Estep as <- <-;
      rewrite ?flush_errors; reflexivity.
  - injection Estep as <- <-. reflexivity.
Qed.

Lemma consume_items_values st items :
  emitted_batches (fst (consume_items st items))
  = emitted_batches (fst (consume_items st (stream_values items))) /\
  snd (consume_items st items) = snd (consume_items st (stream_values items)).
Proof.
  revert st. induction items as [|item rest IH]; intros st; [split; reflexivity|].
  destruct item as [err|x].
  - cbn [consume_items consume_step stream_values].
    specialize (IH st). destruct (consume_items st rest) as [o2 s2].
    simpl. exact IH.
  - cbn [consume_items stream_values].
    destruct (consume_step st (SVal x)) as [o s1].
    specialize (IH s1).
    destruct (consume_items s1 rest) as [o2 s2].
    destruct (consume_items s1 (stream_values rest)) as [o3 s3].
    simpl in IH |- *. destruct IH as [IH1 IH2].
    rewrite !emitted_batches_app, IH1, IH2. split; reflexivity.
Qed.

(** X3: the batcher passes every error of the stream on, in order, and
    pushes no other error; and the errors do not disturb the batching: the
    batches are those of the stream without its errors. *)
Theorem batcher_passes_errors_through (items : list StreamItem) :
  emitted_errors (batch_by_sequence items) = stream_errors items /\
  emitted_batches (batch_by_sequence items)
  = emitted_batches (batch_by_sequence (stream_values items)).
Proof.
  unfold batch_by_sequence.
  pose proof (consume_items_errors batcher_init items) as He.
  pose proof (consume_items_values batcher_init items) as [Hb Hs].
  destruct (consume_items batcher_init items) as [out st].
  destruct (consume_items batcher_init (stream_values items)) as [out' st'].
  simpl in He, Hb, Hs. subst st'.
  rewrite emitted_errors_app, !emitted_batches_app, He, Hb, flush_errors.
  rewrite app_nil_r. split; reflexivity.
Qed.

(** X4: a start marker does not flush and does not clear what is pending:
    feature changes that arrive before a start marker go out at the next
    end marker together with those that follow it, in one batch under the
    number of that start marker. *)
Theorem start_marker_keeps_pending
    (before after : list FeatureCollection) (n m : Z) :
  batch_by_sequence
    (map change before ++ [start_marker n] ++ map change after ++ [end_marker m])
  = match before ++ after with
    | [] => []
    | _ :: _ => [PushVal (Some n, map EvFeatureCollection (before ++ after))]
    end.
Proof.
  unfold batch_by_sequence, batcher_init.
  rewrite consume_items_app, consume_items_changes.
  rewrite consume_items_app. cbn [consume_items consume_step start_marker status].
  cbn [String.eqb Ascii.eqb Bool.eqb]. cbv iota.
  rewrite consume_items_app, consume_items_changes.
  simpl. rewrite <- map_app, app_nil_r.
  unfold flush. simpl.
  destruct (before ++ after); reflexivity.
Qed.

(** * Further properties of the extraction stream *)

Lemma find_new_none features :
  ExtractionStream.find_new features = None <->
  existsb (fun f => (feat_id f =? "new")%string) features = false.
Proof.
  induction features as [|f rest IH]; simpl; [tauto|].
  destruct (feat_id f =? "new")%string; simpl.
  - split; discriminate.
  - rewrite <- IH. destruct (ExtractionStream.find_new rest); simpl;
      split; congruence.
Qed.

Lemma transform_accepts obj :
  transformable obj = true ->
  ExtractionStream._transform obj = Ok (transformed obj).
Proof.
  unfold transformed. destruct obj as [m|fc]; [reflexivity|].
  simpl. unfold has_new. intros Hnew.
  destruct (ExtractionStream.find_new (fc_features fc)) eqn:E; [reflexivity|].
  apply find_new_none in E. congruence.
Qed.

Lemma transform_rejects obj :
  transformable obj = false ->
  ExtractionStream._transform obj
  = Throw "TypeError: Cannot read property 'properties' of undefined".
Proof.
  destruct obj as [m|fc]; [discriminate|].
  simpl. unfold has_new. intros Hnew. apply find_new_none in Hnew.
  rewrite Hnew. reflexivity.
Qed.

Lemma run_accepts feed :
  forallb transformable feed = true ->
  ExtractionStream.run feed = (map transformed feed, None).
Proof.
  induction feed as [|obj rest IH]; [reflexivity|].
  simpl. intros Hall. apply andb_prop in Hall as [Hobj Hrest].
  rewrite (transform_accepts obj Hobj), (IH Hrest). reflexivity.
Qed.

(** X5: [_transform] throws exactly on a feature collection without a
    feature of id ["new"].  A run of the stream over a feed whose events
    are all acceptable pushes one event per event of the feed and ends
    without an exception; at the first event that is not, it stops with a
    [TypeError], having pushed the events before it and nothing after. *)
Theorem extraction_stops_at_first_malformed :
  (forall obj,
      transformable obj = false <->
      exists err, ExtractionStream._transform obj = Throw err) /\
  (forall feed,
      forallb transformable feed = true ->
      ExtractionStream.run feed = (map transformed feed, None)) /\
  (forall pre obj post,
      forallb transformable pre = true ->
      transformable obj = false ->
      ExtractionStream.run (pre ++ obj :: post)
      = (map transformed pre,
         Some "TypeError: Cannot read property 'properties' of undefined")).
Proof.
  split; [|split].
  - intros obj. split.
    + intros Hno. rewrite (transform_rejects obj Hno). eauto.
    + intros [err Herr]. destruct (transformable obj) eqn:E; [|reflexivity].
      rewrite (transform_accepts obj E) in Herr. discriminate.
  - exact run_accepts.
  - intros pre obj post Hpre Hobj.
    induction pre as [|x pre IH].
    + simpl. rewrite (transform_rejects obj Hobj). reflexivity.
    + simpl in Hpre. apply andb_prop in Hpre as [Hx Hpre].
      simpl. rewrite (transform_accepts x Hx), (IH Hpre). reflexivity.
Qed.

Lemma extraction_stops_at_first_malformed_witness :
  ExtractionStream.run
    ([EvMarker {| status := "start"; sequenceNumber := 1 |}]
       ++ EvFeatureCollection
            {| fc_id := "modify"; fc_features := [old_feature ∅] |}
       :: [EvMarker {| status := "end"; sequenceNumber := 1 |}])
  = (map transformed [EvMarker {| status := "start"; sequenceNumber := 1 |}],
     Some "TypeError: Cannot read property 'properties' of undefined").
Proof.
  apply (proj2 (proj2 extraction_stops_at_first_malformed)
           [EvMarker {| status := "start"; sequenceNumber := 1 |}]
           (EvFeatureCollection
              {| fc_id := "modify"; fc_features := [old_feature ∅] |})
           [EvMarker {| status := "end"; sequenceNumber := 1 |}]);
    reflexivity.
Defined.

Lemma set_visible_twice v f :
  ExtractionStream.set_visible v (ExtractionStream.set_visible v f)
  = ExtractionStream.set_visible v f.
Proof.
  unfold ExtractionStream.set_visible. simpl.
  rewrite insert_insert_eq. reflexivity.
Qed.

(** X6: [_transform] is idempotent: an event it has pushed goes through it
    again unchanged. *)
Theorem extraction_transform_idempotent (obj out : Event) :
  ExtractionStream._transform obj = Ok out ->
  ExtractionStream._transform out = Ok out.
Proof.
  destruct obj as [m|fc]; simpl.
  - intros [= <-]. reflexivity.
  - destruct (ExtractionStream.find_new (fc_features fc)) as [i|] eqn:E;
      [|discriminate].
    intros [= <-]. simpl.
    rewrite find_new_alter by reflexivity. rewrite E.
    rewrite list_alter_alter_eq.
    do 3 f_equal. apply list_alter_ext; [|reflexivity].
    intros f _. apply set_visible_twice.
Qed.

Lemma extraction_transform_idempotent_witness :
  ExtractionStream._transform
    (EvFeatureCollection
       {| fc_id := "delete";
          fc_features := [old_feature ∅;
                          new_feature (<["visible" := JsBool false]> ∅)] |})
  = Ok (EvFeatureCollection
          {| fc_id := "delete";
             fc_features := [old_feature ∅;
                             new_feature (<["visible" := JsBool false]> ∅)] |}).
Proof.
  apply (extraction_transform_idempotent
           (EvFeatureCollection
              {| fc_id := "delete";
                 fc_features := [old_feature ∅; new_feature ∅] |})).
  reflexivity.
Defined.

Lemma transformed_marker m : transformed (EvMarker m) = EvMarker m.
Proof. reflexivity. Qed.

Lemma transformed_collection fc :
  exists fc', transformed (EvFeatureCollection fc) = EvFeatureCollection fc'.
Proof.
  unfold transformed. simpl.
  destruct (ExtractionStream.find_new (fc_features fc)); eauto.
Qed.

Lemma flush_transformed st :
  flush (transformed_state st) = map transformed_emitted (flush st).
Proof.
  unfold flush, transformed_state. simpl. rewrite length_map.
  destruct (0 <? length (batched st))%nat; reflexivity.
Qed.

Lemma consume_step_transformed st item :
  consume_step (transformed_state st) (transformed_item item)
  = (map transformed_emitted (fst (consume_step st item)),
     transformed_state (snd (consume_step st item))).
Proof.
  destruct item as [err|[m|fc]].
  - reflexivity.
  - cbn [transformed_item]. rewrite transformed_marker.
    cbn [consume_step].
    destruct (status m =? "start")%string, (status m =? "end")%string;
      cbn [fst snd]; rewrite <- ?flush_transformed; reflexivity.
  - cbn [transformed_item].
    destruct (transformed_collection fc) as [fc' Hfc]. rewrite Hfc.
    cbn [consume_step fst snd]. unfold transformed_state. simpl.
    rewrite map_app. simpl. rewrite Hfc. reflexivity.
Qed.

Lemma consume_items_transformed st items :
  consume_items (transformed_state st) (map transformed_item items)
  = (map transformed_emitted (fst (consume_items st items)),
     transformed_state (snd (consume_items st items))).
Proof.
  revert st. induction items as [|item rest IH]; intros st; [reflexivity|].
  cbn [map consume_items]. rewrite consume_step_transformed.
  destruct (consume_step st item) as [o s1]. cbn [fst snd].
  rewrite IH. destruct (consume_items s1 rest) as [o2 s2]. cbn [fst snd].
  rewrite map_app. reflexivity.
Qed.

Lemma run_pushes_transformed feed events :
  ExtractionStream.run feed = (events, None) -> events = map transformed feed.
Proof.
  revert events. induction feed as [|obj rest IH]; intros events; simpl.
  - intros [= <-]. reflexivity.
  - unfold transformed at 1.
    destruct (ExtractionStream._transform obj) as [out|err]; [|discriminate].
    destruct (ExtractionStream.run rest) as [outs crash].
    intros [= <- ->]. rewrite (IH outs eq_refl). reflexivity.
Qed.

Lemma batch_transformed feed :
  batch_by_sequence (map SVal (map transformed feed))
  = map transformed_emitted (batch_by_sequence (map SVal feed)).
Proof.
  unfold batch_by_sequence.
  replace (map SVal (map transformed feed))
    with (map transformed_item (map SVal feed))
    by (rewrite !map_map; reflexivity).
  change batcher_init with (transformed_state batcher_init) at 1.
  rewrite consume_items_transformed.
  destruct (consume_items batcher_init (map SVal feed)) as [out st].
  cbn [fst snd]. rewrite map_app, flush_transformed. reflexivity.
Qed.

(** X7: the extraction stream does not change how the feed is batched:
    when it runs through a feed without an exception, batching what it
    pushes gives the batches of the untouched feed, with the same sequence
    numbers and in the same order, each item being the transformed one. *)
Theorem extraction_commutes_with_batching (feed events : list Event) :
  ExtractionStream.run feed = (events, None) ->
  batch_by_sequence (map SVal events)
  = map transformed_emitted (batch_by_sequence (map SVal feed)).
Proof.
  intros Hrun. apply run_pushes_transformed in Hrun. subst events.
  apply batch_transformed.
Qed.

Lemma extraction_commutes_with_batching_witness :
  batch_by_sequence
    (map SVal
       [ EvMarker {| status := "start"; sequenceNumber := 3 |};
         EvFeatureCollection
           {| fc_id := "create";
              fc_features := [new_feature (<["visible" := JsBool true]> ∅)] |};
         EvMarker {| status := "end"; sequenceNumber := 3 |} ])
  = map transformed_emitted
      (batch_by_sequence
         (map SVal
            [ EvMarker {| status := "start"; sequenceNumber := 3 |};
              EvFeatureCollection
                {| fc_id := "create"; fc_features := [new_feature ∅] |};
              EvMarker {| status := "end"; sequenceNumber := 3 |} ])).
Proof.
  apply (extraction_commutes_with_batching
           [ EvMarker {| status := "start"; sequenceNumber := 3 |};
             EvFeatureCollection
               {| fc_id := "create"; fc_features := [new_feature ∅] |};
             EvMarker {| status := "end"; sequenceNumber := 3 |} ]).
  reflexivity.
Defined.

(** * Further properties of the conversions *)

Lemma minutes_as_fraction (ms : Z) :
  ((inject_Z ms / 1000 - 1347432900) / 60 == (ms - 1347432900000) # 60000)%Q.
Proof.
  unfold Qeq, Qdiv, Qminus, Qmult, Qplus, Qopp, Qinv, inject_Z. simpl. lia.
Qed.

Lemma ceiling_bounds (ms : Z) :
  let n := Qceiling ((inject_Z ms / 1000 - 1347432900) / 60)%Q in
  sequence_ms (n - 1) < ms <= sequence_ms n.
Proof.
  intros n.
  pose proof (Qle_ceiling ((inject_Z ms / 1000 - 1347432900) / 60)%Q) as Hle.
  pose proof (Qceiling_lt ((inject_Z ms / 1000 - 1347432900) / 60)%Q) as Hlt.
  fold n in Hle, Hlt.
  rewrite minutes_as_fraction in Hle, Hlt.
  unfold Qle, Qlt, inject_Z in Hle, Hlt. simpl in Hle, Hlt.
  unfold sequence_ms. lia.
Qed.

(** X8: for a timestamp that parses, [timestampToSequence] is the first
    sequence whose own timestamp is not before it: the timestamp lies after
    that of the sequence before and not after that of the sequence
    returned.  A timestamp that does not parse gives [NaN]. *)
Theorem timestamp_rounds_up_to_sequence `{Runtime} (v : JsValue) :
  match Date_parse v with
  | Some ms =>
      exists n,
        timestampToSequence v = Some n /\
        sequence_ms (n - 1) < ms <= sequence_ms n /\
        (forall k, ms <= sequence_ms k -> n <= k)
  | None => timestampToSequence v = None
  end.
Proof.
  unfold timestampToSequence. destruct (Date_parse v) as [ms|]; [|reflexivity].
  eexists. split; [reflexivity|].
  pose proof (ceiling_bounds ms) as Hb. cbv zeta in Hb.
  split; [exact Hb|].
  intros k Hk. unfold sequence_ms in *. lia.
Qed.

Section FurtherPosition.

Context `{Runtime}.

(** [getCurrentSequence], case by case. *)
Lemma getCurrentSequence_cases u w :
  getCurrentSequence u w =
  if supported u then
    match next_fault w with
    | Some err => (Throw err, record (state_read u) (Some err) w)
    | None =>
        match stored_state u w with
        | None =>
            (Throw "Error: no such file or key",
             record (state_read u) (Some "Error: no such file or key") w)
        | Some text =>
            match YAML_parse text with
            | Throw err => (Throw err, record (state_read u) None w)
            | Ok document =>
                match get_sequence document with
                | Throw err => (Throw err, record (state_read u) None w)
                | Ok seq => (Ok (plus_one seq), record (state_read u) None w)
                end
            end
        end
    end
  else (Throw ("Unsupported protocol: " +:+ protocol (url_parse u)), w).
Proof.
  unfold getCurrentSequence, supported, stored_state, state_read.
  destruct (protocol (url_parse u) =? "file:")%string eqn:Ef.
  - cbn [orb]. unfold mbind, IO_bind, readFile, fetch, settle, mret, IO_ret.
    destruct (next_fault w); [reflexivity|].
    destruct (files w !! _); [|reflexivity].
    destruct (YAML_parse s); [|reflexivity].
    destruct (get_sequence a); reflexivity.
  - cbn [orb].
    destruct (protocol (url_parse u) =? "s3:")%string eqn:Es; [|reflexivity].
    unfold mbind, IO_bind, getObject, fetch, settle, mret, IO_ret.
    destruct (next_fault w); [reflexivity|].
    destruct (objects w !! _); [|reflexivity].
    destruct (YAML_parse s); [|reflexivity].
    destruct (get_sequence a); reflexivity.
Qed.

End FurtherPosition.

(** X9: with no sequence given (or the sequence 0) and a non-empty
    timestamp, [main] takes the first sequence whose timestamp is not
    before the one given, without reading the stored state; a timestamp
    that does not parse gives [NaN], with no error and no fallback to the
    stored state. *)
Theorem main_initialSequence_of_timestamp `{Runtime}
    (options : Options) (w : World) (s : string) :
  truthy (initialSequence options) = false ->
  timestamp options = JsString s ->
  s <> "" ->
  exists initial,
    main_initialSequence options w = (Ok initial, w) /\
    match Date_parse_string s with
    | Some ms =>
        exists n, initial = JsNumber n /\ sequence_ms (n - 1) < ms <= sequence_ms n
    | None => initial = JsNaN
    end.
Proof.
  intros Hseq Hts Hs. unfold main_initialSequence.
  rewrite Hseq, Hts. simpl.
  destruct (String.eqb_spec s ""); [contradiction|]. simpl.
  eexists. split; [reflexivity|].
  unfold timestampToSequence, Date_parse.
  destruct (Date_parse_string s) as [ms|]; [|reflexivity].
  eexists. split; [reflexivity|].
  pose proof (ceiling_bounds ms) as Hb. exact Hb.
Qed.

Lemma main_initialSequence_of_timestamp_witness :
  exists initial,
    @main_initialSequence Demo.runtime
      {| initialSequence := JsNumber 0;
         timestamp := JsString "2018-04-09T02:00:01Z";
         target := None |} (Demo.world [])
    = (Ok initial, Demo.world []) /\
    match @Date_parse_string Demo.runtime "2018-04-09T02:00:01Z" with
    | Some ms =>
        exists n, initial = JsNumber n /\ sequence_ms (n - 1) < ms <= sequence_ms n
    | None => initial = JsNaN
    end.
Proof.
  apply (@main_initialSequence_of_timestamp Demo.runtime
           {| initialSequence := JsNumber 0;
              timestamp := JsString "2018-04-09T02:00:01Z";
              target := None |} (Demo.world []) "2018-04-09T02:00:01Z").
  - reflexivity.
  - reflexivity.
  - discriminate.
Defined.

(** X10: [getCurrentSequence] has no fallback: it returns a value only when
    the target is a [file:] or [s3:] one, the read of its state did not
    fail, there was a state to read, it parsed, and the document has
    properties; the value is then [sequence + 1] of that document.  In
    every other case it throws. *)
Theorem getCurrentSequence_returns_only_from_state `{Runtime}
    (u : string) (w : World) (v : JsValue) :
  fst (getCurrentSequence u w) = Ok v ->
  supported u = true /\
  next_fault w = None /\
  exists text document seq,
    stored_state u w = Some text /\
    YAML_parse text = Ok document /\
    get_sequence document = Ok seq /\
    v = plus_one seq.
Proof.
  rewrite getCurrentSequence_cases.
  destruct (supported u); [|discriminate].
  destruct (next_fault w); [discriminate|].
  destruct (stored_state u w) as [text|]; [|discriminate].
  destruct (YAML_parse text) as [document|] eqn:Ep; [|discriminate].
  destruct (get_sequence document) as [seq|] eqn:Eg; [|discriminate].
  simpl. intros [= <-]. repeat split. eauto 10.
Qed.

Lemma getCurrentSequence_returns_only_from_state_witness :
  @supported Demo.runtime "file://./" = true /\
  next_fault (Demo.world []) = None /\
  exists text document seq,
    @stored_state Demo.runtime "file://./" (Demo.world []) = Some text /\
    @YAML_parse Demo.runtime text = Ok document /\
    get_sequence document = Ok seq /\
    JsNumber 100 = @plus_one Demo.runtime seq.
Proof.
  apply (@getCurrentSequence_returns_only_from_state Demo.runtime
           "file://./" (Demo.world []) (JsNumber 100)).
  vm_compute. reflexivity.
Defined.

(** X11: [getCurrentSequence] never writes: it leaves the files and the
    objects as they were, and what it adds to the log is nothing for an
    unsupported target and exactly one read of the state otherwise. *)
Theorem getCurrentSequence_only_reads `{Runtime} (u : string) (w : World) :
  let w' := snd (getCurrentSequence u w) in
  same_stores w w' /\
  exists added,
    log w' = log w ++ added /\
    Forall (fun entry => is_read (fst entry) = true) added /\
    length added = if supported u then 1%nat else 0%nat.
Proof.
  rewrite getCurrentSequence_cases. unfold same_stores.
  assert (Hread : is_read (state_read u) = true).
  { unfold state_read. destruct (_ =? _)%string; reflexivity. }
  destruct (supported u).
  - destruct (next_fault w) as [err|].
    { simpl. repeat split. eexists. split; [reflexivity|].
      split; [|reflexivity]. repeat constructor. exact Hread. }
    destruct (stored_state u w) as [text|].
    2:{ simpl. repeat split. eexists. split; [reflexivity|].
        split; [|reflexivity]. repeat constructor. exact Hread. }
    destruct (YAML_parse text) as [document|].
    2:{ simpl. repeat split. eexists. split; [reflexivity|].
        split; [|reflexivity]. repeat constructor. exact Hread. }
    destruct (get_sequence document);
      simpl; repeat split; eexists; (split; [reflexivity|]);
      (split; [|reflexivity]); repeat constructor; exact Hread.
  - simpl. repeat split. exists []. rewrite app_nil_r.
    repeat split. constructor.
Qed.

(** X12: a stored state that parses to a mapping never makes
    [getCurrentSequence] fail, whatever its [sequence] is: without a
    [sequence] the result is [NaN], and a [sequence] that is a string gets
    ["1"] appended instead of being incremented. *)
Theorem getCurrentSequence_of_odd_state `{Runtime}
    (u : string) (w : World) (text : string) (fields : gmap string JsValue) :
  next_fault w = None ->
  stored_state u w = Some text ->
  YAML_parse text = Ok (YamlMap fields) ->
  match fields !! "sequence" with
  | None => fst (getCurrentSequence u w) = Ok JsNaN
  | Some (JsString s) => fst (getCurrentSequence u w) = Ok (JsString (s +:+ "1"))
  | Some _ => exists v', fst (getCurrentSequence u w) = Ok v'
  end.
Proof.
  intros Hfault Hstored Hparse.
  rewrite getCurrentSequence_cases.
  assert (Hsup : supported u = true).
  { unfold stored_state, supported in *.
    destruct (protocol (url_parse u) =? "file:")%string; [reflexivity|].
    destruct (protocol (url_parse u) =? "s3:")%string; [reflexivity|discriminate]. }
  rewrite Hsup, Hfault, Hstored, Hparse. simpl.
  destruct (fields !! "sequence") as [[]|]; simpl; eauto.
Qed.

Lemma getCurrentSequence_of_odd_state_witness :
  fst (@getCurrentSequence Demo.runtime "file://./"
         {| files := {[ "./state.yaml" := "last_run: never" ]};
            objects := ∅; log := []; faults := []; stdout := []; now := "" |})
  = Ok JsNaN.
Proof.
  refine (@getCurrentSequence_of_odd_state Demo.runtime "file://./"
            {| files := {[ "./state.yaml" := "last_run: never" ]};
               objects := ∅; log := []; faults := []; stdout := []; now := "" |}
            "last_run: never" ∅ _ _ _).
  - reflexivity.
  - vm_compute. reflexivity.
  - vm_compute. reflexivity.
Defined.

(** * Further properties of the writer *)

Section FurtherWriter.

Context `{Runtime}.

Lemma no_fault_next k w :
  no_fault_within (S k) w -> next_fault w = None.
Proof.
  unfold no_fault_within, next_fault.
  destruct (faults w) as [|[err|] rest]; simpl; [reflexivity| |reflexivity].
  intros Hall. inversion Hall; subst. discriminate.
Qed.

Lemma no_fault_step k eff w :
  no_fault_within (S k) w ->
  no_fault_within k (record eff None (commit eff w)).
Proof.
  unfold no_fault_within.
  assert (Hf : faults (record eff None (commit eff w)) = tail (faults w)).
  { destruct eff; reflexivity. }
  rewrite Hf. destruct (faults w) as [|f rest]; simpl.
  - intros _. destruct k; constructor.
  - intros Hall. inversion Hall; subst. assumption.
Qed.

(** Calls that the oracle lets through all complete. *)
Lemma perform_each_no_fault calls w :
  no_fault_within (length calls) w ->
  perform_each calls w = (Ok None, after_calls calls w).
Proof.
  revert w. induction calls as [|eff rest IH]; intros w Hno; [reflexivity|].
  simpl in Hno. cbn [perform_each after_calls fold_left].
  unfold perform. rewrite (no_fault_next _ _ Hno).
  apply IH. apply no_fault_step. exact Hno.
Qed.

Lemma writer_line_valid n :
  0 <= n <= last_dated_sequence ->
  sequenceToTimestamp (ToNumber_sequence (Some n)) = ValidDate (sequence_ms n).
Proof. intros Hn. apply (sequenceToTimestamp_valid n Hn). Qed.

Lemma supported_calls u n batch last_run :
  supported u = true ->
  writer_calls u n batch last_run <> [] /\
  (length (writer_calls u n batch last_run) <= 3)%nat.
Proof.
  unfold supported, writer_calls.
  destruct (protocol (url_parse u) =? "s3:")%string.
  - intros _. split; [discriminate | simpl; lia].
  - destruct (protocol (url_parse u) =? "file:")%string; [|discriminate].
    intros _. split; [discriminate | simpl; lia].
Qed.

(** The writer when nothing fails. *)
Lemma writer_no_fault u n batch w :
  0 <= n <= last_dated_sequence ->
  supported u = true ->
  no_fault_within 3 w ->
  writer u (Some n, batch) w =
  (Ok None,
   after_calls (writer_calls u n batch (now w))
     (after_line (writer_line (Some n) batch) w)).
Proof.
  intros Hn Hsup Hno. rewrite writer_cases. unfold writer_line.
  rewrite (writer_line_valid n Hn). cbv zeta.
  destruct (supported_calls u n batch (now w) Hsup) as [Hne Hlen].
  destruct (writer_calls u n batch (now w)) as [|c cs] eqn:Ec;
    [contradiction|].
  apply perform_each_no_fault.
  unfold no_fault_within in *. simpl faults.
  apply Forall_forall. intros f Hf.
  rewrite Forall_forall in Hno. apply Hno.
  replace (take (length (c :: cs)) (faults w))
    with (take (length (c :: cs)) (take 3 (faults w))) in Hf
    by (rewrite take_take; f_equal; lia).
  exact (subseteq_take _ _ _ Hf).
Qed.

End FurtherWriter.

Section FurtherWriterProperties.

Context `{Runtime}.

Lemma after_calls_log calls w :
  log (after_calls calls w) = log w ++ map (fun c => (c, None)) calls.
Proof.
  revert w. induction calls as [|c cs IH]; intros w.
  - simpl. rewrite app_nil_r. reflexivity.
  - cbn [after_calls fold_left] in *. rewrite IH.
    assert (Hl : log (record c None (commit c w)) = log w ++ [(c, None)]).
    { destruct c; reflexivity. }
    rewrite Hl, <- app_assoc. reflexivity.
Qed.

Lemma after_calls_faults calls w :
  faults (after_calls calls w) = drop (length calls) (faults w).
Proof.
  revert w. induction calls as [|c cs IH]; intros w; [reflexivity|].
  cbn [after_calls fold_left] in *. rewrite IH.
  assert (Hf : faults (record c None (commit c w)) = tail (faults w)).
  { destruct c; reflexivity. }
  rewrite Hf. destruct (faults w); simpl; [apply drop_nil | reflexivity].
Qed.

Lemma sequenceToTimestamp_invalid n :
  last_dated_sequence < n -> sequenceToTimestamp n = InvalidDate.
Proof.
  unfold last_dated_sequence, sequenceToTimestamp, new_Date. intros Hn.
  destruct (Z.leb_spec (Z.abs ((n * 60 + 1347432900) * 1000)) 8640000000000000);
    [lia | reflexivity].
Qed.

Lemma unsupported_calls u n batch last_run :
  supported u = false -> writer_calls u n batch last_run = [].
Proof.
  unfold supported, writer_calls.
  destruct (protocol (url_parse u) =? "s3:")%string;
    destruct (protocol (url_parse u) =? "file:")%string;
    try discriminate; reflexivity.
Qed.

End FurtherWriterProperties.

(** X13: when the writer cannot go on it makes no call at all, so the
    files, the objects and the log stay as they were: for a batch whose
    sequence is [null] it throws a [TypeError]; for a sequence whose
    timestamp is beyond the range of a [Date] it throws a [RangeError],
    before it has even printed its line; for a target that is neither
    [file:] nor [s3:] it hands ["Unsupported protocol"] to the callback. *)
Theorem writer_refuses_without_calls `{Runtime} :
  (forall u batch w,
      exists w',
        writer u (None, batch) w
        = (Throw "TypeError: Cannot read property 'toString' of null", w') /\
        log w' = log w /\ same_stores w w') /\
  (forall u n batch w,
      last_dated_sequence < n ->
      writer u (Some n, batch) w = (Throw "RangeError: Invalid time value", w)) /\
  (forall u n batch w,
      0 <= n <= last_dated_sequence ->
      supported u = false ->
      exists w',
        writer u (Some n, batch) w
        = (Ok (Some ("Unsupported protocol: " +:+ protocol (url_parse u))), w') /\
        log w' = log w /\ same_stores w w').
Proof.
  split; [|split].
  - intros u batch w. rewrite writer_cases. simpl.
    eexists. split; [reflexivity|]. repeat split.
  - intros u n batch w Hn. rewrite writer_cases.
    change (ToNumber_sequence (Some n)) with n.
    rewrite (sequenceToTimestamp_invalid n Hn). reflexivity.
  - intros u n batch w Hn Hsup. rewrite writer_cases.
    rewrite (writer_line_valid n Hn). cbv zeta.
    rewrite (unsupported_calls u n batch (now w) Hsup).
    eexists. split; [reflexivity|]. repeat split.
Qed.

Lemma writer_refuses_without_calls_witness :
  @writer Demo.runtime "file://./" (Some 143977542786, []) (Demo.world [])
  = (Throw "RangeError: Invalid time value", Demo.world []).
Proof.
  apply (proj1 (proj2 (@writer_refuses_without_calls Demo.runtime))
           "file://./" 143977542786 [] (Demo.world [])).
  unfold last_dated_sequence. lia.
Defined.

(** X14: when none of its calls fails, the writer reports success and
    leaves, under the target, the data object of the sequence, which is the
    gzip of the batch's lines, and a state that names the sequence; its
    calls are in the log in the order it made them, all completed. *)
Theorem writer_success_stores_batch `{Runtime}
    (u : string) (n : Z) (batch : list Event) (w : World) :
  0 <= n <= last_dated_sequence ->
  supported u = true ->
  no_fault_within 3 w ->
  distinct_files u n ->
  exists w',
    writer u (Some n, batch) w = (Ok None, w') /\
    stored_data u n w' = Some (gzip (batch_body batch)) /\
    stored_state u w' = Some (YAML_stringify (now w) (Some n)) /\
    log w' = log w ++ map (fun c => (c, None)) (writer_calls u n batch (now w)).
Proof.
  intros Hn Hsup Hno Hdistinct.
  rewrite (writer_no_fault u n batch w Hn Hsup Hno).
  eexists. split; [reflexivity|].
  split; [|split; [|rewrite after_calls_log; reflexivity]].
  - unfold stored_data, writer_calls, supported, batch_body in *.
    destruct (protocol (url_parse u) =? "s3:")%string eqn:Es3.
    + rewrite (s3_not_file u Es3). simpl.
      rewrite lookup_insert_ne, lookup_insert_eq; [reflexivity|].
      intros [= E]. pose proof (data_key_not_state
                                 (slice_from (path (url_parse u)) 1) n) as Hk.
      apply String.eqb_neq in Hk. congruence.
    + destruct (protocol (url_parse u) =? "file:")%string; [|discriminate].
      simpl. rewrite lookup_insert_ne, lookup_insert_eq; [reflexivity|].
      intros E. apply Hdistinct. symmetry. exact E.
  - unfold stored_state, writer_calls, supported in *.
    destruct (protocol (url_parse u) =? "s3:")%string eqn:Es3.
    + rewrite (s3_not_file u Es3). simpl. rewrite lookup_insert_eq. reflexivity.
    + destruct (protocol (url_parse u) =? "file:")%string; [|discriminate].
      simpl. rewrite lookup_insert_eq. reflexivity.
Qed.

Lemma writer_success_stores_batch_witness :
  exists w',
    @writer Demo.runtime "s3://bucket/augdiffs/" (Some 42, []) (Demo.world [])
    = (Ok None, w') /\
    @stored_data Demo.runtime "s3://bucket/augdiffs/" 42 w'
    = Some (@gzip Demo.runtime (@batch_body Demo.runtime [])) /\
    @stored_state Demo.runtime "s3://bucket/augdiffs/" w'
    = Some (@YAML_stringify Demo.runtime (now (Demo.world [])) (Some 42)) /\
    log w' = log (Demo.world [])
             ++ map (fun c => (c, None))
                  (@writer_calls Demo.runtime "s3://bucket/augdiffs/" 42 []
                     (now (Demo.world []))).
Proof.
  apply (@writer_success_stores_batch Demo.runtime
           "s3://bucket/augdiffs/" 42 [] (Demo.world [])).
  - unfold last_dated_sequence. lia.
  - reflexivity.
  - constructor.
  - unfold distinct_files. vm_compute. discriminate.
Defined.

(** X15: publishing a batch and resuming compose: after a call of the
    writer in which nothing failed, [getCurrentSequence] on the same target
    returns the sequence just written plus one, provided [YAML.parse] reads
    back the sequence that [YAML.stringify] wrote. *)
Theorem resume_follows_published_sequence `{Runtime}
    (u : string) (n : Z) (batch : list Event) (w : World)
    (fields : gmap string JsValue) :
  0 <= n <= last_dated_sequence ->
  supported u = true ->
  faults w = [] ->
  YAML_parse (YAML_stringify (now w) (Some n)) = Ok (YamlMap fields) ->
  fields !! "sequence" = Some (JsNumber n) ->
  fst (getCurrentSequence u (snd (writer u (Some n, batch) w)))
  = Ok (JsNumber (n + 1)).
Proof.
  intros Hn Hsup Hfaults Hparse Hseq.
  assert (Hno : no_fault_within 3 w).
  { unfold no_fault_within. rewrite Hfaults. constructor. }
  rewrite (writer_no_fault u n batch w Hn Hsup Hno). cbn [snd].
  apply (getCurrentSequence_stored _ _ (YAML_stringify (now w) (Some n)) fields n);
    try assumption.
  - unfold next_fault. rewrite after_calls_faults. simpl faults.
    rewrite Hfaults, drop_nil. reflexivity.
  - unfold stored_state, writer_calls, supported in *.
    destruct (protocol (url_parse u) =? "s3:")%string eqn:Es3.
    + rewrite (s3_not_file u Es3). simpl. rewrite lookup_insert_eq. reflexivity.
    + destruct (protocol (url_parse u) =? "file:")%string; [|discriminate].
      simpl. rewrite lookup_insert_eq. reflexivity.
Qed.

Lemma resume_follows_published_sequence_witness :
  fst (@getCurrentSequence Demo.runtime "file://./"
         (snd (@writer Demo.runtime "file://./" (Some 123, []) (Demo.world []))))
  = Ok (JsNumber (123 + 1)).
Proof.
  apply (@resume_follows_published_sequence Demo.runtime "file://./" 123 []
           (Demo.world []) {[ "sequence" := JsNumber 123 ]}).
  - unfold last_dated_sequence. lia.
  - reflexivity.
  - reflexivity.
  - vm_compute. reflexivity.
  - vm_compute. reflexivity.
Defined.

(** * Further properties of the run *)

Section FurtherRun.

Context `{Runtime}.


Lemma after_calls_now calls w : now (after_calls calls w) = now w.
Proof.
  revert w. induction calls as [|c cs IH]; intros w; [reflexivity|].
  cbn [after_calls fold_left] in *. rewrite IH. destruct c; reflexivity.
Qed.

Lemma stored_state_after_calls u n batch w :
  supported u = true ->
  stored_state u (after_calls (writer_calls u n batch (now w)) w)
  = Some (YAML_stringify (now w) (Some n)).
Proof.
  unfold stored_state, writer_calls, supported.
  destruct (protocol (url_parse u) =? "s3:")%string eqn:Es3.
  - rewrite (s3_not_file u Es3). simpl. rewrite lookup_insert_eq. reflexivity.
  - destruct (protocol (url_parse u) =? "file:")%string; [|discriminate].
    simpl. rewrite lookup_insert_eq. reflexivity.
Qed.

End FurtherRun.


Lemma publish_all_no_fault `{Runtime}
    (u : string) (sbs : list (Z * list Event)) (w : World) :
  supported u = true ->
  faults w = [] ->
  Forall (fun sb => 0 <= fst sb <= last_dated_sequence) sbs ->
  exists w',
    publish u (map numbered_batch sbs) w = (Resolved, w') /\
    log w' = log w ++ concat (map (completed_calls u (now w)) sbs) /\
    stored_state u w' =
      match last sbs with
      | Some sb => Some (YAML_stringify (now w) (Some (fst sb)))
      | None => stored_state u w
      end.
Proof.
  intros Hsup Hfaults Hrange. revert w Hfaults.
  induction Hrange as [|sb sbs Hsb Hrest IH]; intros w Hfaults.
  - exists w. simpl. rewrite app_nil_r. repeat split.
  - destruct sb as [n batch]. simpl in Hsb.
    assert (Hno : no_fault_within 3 w).
    { unfold no_fault_within. rewrite Hfaults. constructor. }
    change (map numbered_batch ((n, batch) :: sbs))
      with (PushVal (Some n, batch) :: map numbered_batch sbs).
    rewrite publish_step.
    rewrite (writer_no_fault u n batch w Hsb Hsup Hno).
    set (w1 := after_calls (writer_calls u n batch (now w))
                 (after_line (writer_line (Some n) batch) w)).
    assert (Hf1 : faults w1 = []).
    { unfold w1. rewrite after_calls_faults. simpl faults.
      rewrite Hfaults. apply drop_nil. }
    assert (Hnow : now w1 = now w).
    { unfold w1. rewrite after_calls_now. reflexivity. }
    destruct (IH w1 Hf1) as (w' & Hpub & Hlog & Hstate).
    exists w'. split; [exact Hpub|]. split.
    + rewrite Hlog, Hnow. unfold w1. rewrite after_calls_log. simpl log.
      cbn [map concat]. unfold completed_calls at 2. cbn [fst snd].
      rewrite <- app_assoc. reflexivity.
    + rewrite Hstate, Hnow. rewrite last_cons.
      destruct (last sbs) as [sb'|]; [reflexivity|].
      unfold w1.
      apply (stored_state_after_calls u n batch
               (after_line (writer_line (Some n) batch) w) Hsup).
Qed.

(** X17: when no call fails, a run over batches with sequence numbers
    resolves, every batch is written by its calls in the order of the
    batches, and the state left under the target names the sequence of the
    last batch. *)
Theorem publish_all_leaves_last_sequence `{Runtime}
    (u : string) (sbs : list (Z * list Event)) (w : World) :
  supported u = true ->
  faults w = [] ->
  Forall (fun sb => 0 <= fst sb <= last_dated_sequence) sbs ->
  exists w',
    publish u (map numbered_batch sbs) w = (Resolved, w') /\
    log w' = log w ++ concat (map (completed_calls u (now w)) sbs) /\
    stored_state u w' =
      match last sbs with
      | Some sb => Some (YAML_stringify (now w) (Some (fst sb)))
      | None => stored_state u w
      end.
Proof. apply publish_all_no_fault. Qed.

Lemma publish_all_leaves_last_sequence_witness :
  exists w',
    @publish Demo.runtime "file://./"
      (map numbered_batch [(7, []); (8, [])]) (Demo.world [])
    = (Resolved, w') /\
    log w' = log (Demo.world [])
             ++ concat (map (@completed_calls Demo.runtime "file://./"
                               (now (Demo.world []))) [(7, []); (8, [])]) /\
    @stored_state Demo.runtime "file://./" w' =
      match last [(7, @nil Event); (8, [])] with
      | Some sb => Some (@YAML_stringify Demo.runtime (now (Demo.world []))
                           (Some (fst sb)))
      | None => @stored_state Demo.runtime "file://./" (Demo.world [])
      end.
Proof.
  apply (@publish_all_leaves_last_sequence Demo.runtime "file://./"
           [(7, []); (8, [])] (Demo.world [])).
  - reflexivity.
  - reflexivity.
  - unfold last_dated_sequence. repeat constructor; simpl; lia.
Defined.

Lemma last_start_none items :
  forallb (fun item => negb (is_start item)) items = true ->
  last_start items = None.
Proof.
  induction items as [|x items IH]; [reflexivity|].
  simpl. intros Hno. apply andb_prop in Hno as [Hx Hrest].
  rewrite (IH Hrest). destruct x as [err|[m|fc]]; try reflexivity.
  simpl in Hx. apply negb_true_iff in Hx. rewrite Hx. reflexivity.
Qed.

(** Before any start marker the first thing pushed is a batch without a
    sequence. *)
Lemma first_batch_without_sequence items :
  forallb (fun item => negb (is_start item)) items = true ->
  stream_errors items = [] ->
  feature_changes items <> [] ->
  exists b rest, batch_by_sequence items = PushVal (None, b) :: rest.
Proof.
  intros Hno Herr Hfc. unfold batch_by_sequence.
  pose proof (consume_items_errors batcher_init items) as He.
  pose proof (consume_items_items batcher_init items) as Hi.
  pose proof (consume_items_sequence batcher_init items) as Hs.
  pose proof (consume_items_pushed batcher_init items) as Hp.
  destruct (consume_items batcher_init items) as [out st].
  simpl in He, Hi, Hs, Hp. rewrite Herr in He.
  rewrite (last_start_none items Hno) in Hs. simpl in Hs.
  destruct out as [|[err|[s b]] out].
  - simpl in Hi. simpl. unfold flush.
    destruct (batched st) as [|x bs] eqn:Eb; [congruence|].
    simpl. rewrite Hs. eauto.
  - discriminate He.
  - destruct (Hp s b (or_introl eq_refl)) as (pre & m & post & -> & _ & ->).
    rewrite forallb_app in Hno. apply andb_prop in Hno as [Hpre _].
    rewrite (last_start_none pre Hpre). simpl. eauto.
Qed.

(** X18: feature changes that are flushed before any start marker stop the
    run: on a stream without errors and without a start marker that has a
    feature change, the first batch has the sequence [null], the writer
    throws on it, and the run fails with that [TypeError] without a single
    call, leaving files, objects and log as they were. *)
Theorem run_fails_on_batch_without_sequence `{Runtime}
    (u : string) (items : list StreamItem) (w : World) :
  forallb (fun item => negb (is_start item)) items = true ->
  stream_errors items = [] ->
  feature_changes items <> [] ->
  exists w',
    publish u (batch_by_sequence items) w
    = (Failed "TypeError: Cannot read property 'toString' of null", w') /\
    log w' = log w /\ same_stores w w'.
Proof.
  intros Hno Herr Hfc.
  destruct (first_batch_without_sequence items Hno Herr Hfc) as (b & rest & ->).
  rewrite publish_step, writer_cases. simpl.
  eexists. split; [reflexivity|]. repeat split.
Qed.

Lemma run_fails_on_batch_without_sequence_witness :
  exists w',
    @publish Demo.runtime "file://./"
      (batch_by_sequence
         [change {| fc_id := "create"; fc_features := [new_feature ∅] |};
          end_marker 5])
      (Demo.world [])
    = (Failed "TypeError: Cannot read property 'toString' of null", w') /\
    log w' = log (Demo.world []) /\ same_stores (Demo.world []) w'.
Proof.
  apply (@run_fails_on_batch_without_sequence Demo.runtime "file://./"
           [change {| fc_id := "create"; fc_features := [new_feature ∅] |};
            end_marker 5]
           (Demo.world [])).
  - reflexivity.
  - reflexivity.
  - simpl. discriminate.
Defined.

(** * Further properties of the object key *)

Lemma fixed_digits_inj k x y s t :
  (x < 10 ^ N.of_nat k)%N -> (y < 10 ^ N.of_nat k)%N ->
  fixed_digits k x s = fixed_digits k y t -> x = y /\ s = t.
Proof.
  revert x y s t. induction k as [|k IH]; intros x y s t Hx Hy.
  - simpl in Hx, Hy. simpl. intros ->. split; [lia | reflexivity].
  - cbn [fixed_digits]. intros E.
    rewrite Nat2N.inj_succ, N.pow_succ_r' in Hx, Hy.
    apply IH in E as [Hdiv Hs];
      [|apply N.Div0.div_lt_upper_bound; assumption
       |apply N.Div0.div_lt_upper_bound; assumption].
    injection Hs as Hc ->.
    apply pretty_N_char_inj in Hc; [|apply N.mod_lt; lia|apply N.mod_lt; lia].
    split; [|reflexivity].
    rewrite (N.div_mod x 10), (N.div_mod y 10) by lia. lia.
Qed.

Lemma data_key_fixed_digits (n : Z) :
  0 <= n < 10 ^ 9 ->
  exists c8 c7 c6 c5 c4 c3 c2 c1 c0,
    fixed_digits 9 (Z.to_N n) ""
    = String c8 (String c7 (String c6 (String c5 (String c4 (String c3
        (String c2 (String c1 (String c0 "")))))))) /\
    data_key n
    = String c8 (String c7 (String c6 (String "/" (String c5 (String c4
        (String c3 (String "/" (String c2 (String c1 (String c0
          ".json.gz")))))))))).
Proof.
  intros Hn. unfold data_key, sequencePath.
  rewrite (padStart_sequence n Hn).
  cbn [fixed_digits]. do 9 eexists. split; reflexivity.
Qed.

(** X19: below 10^9 different sequences have different keys: no data
    object is written over that of another sequence. *)
Theorem data_key_injective (n m : Z) :
  0 <= n < 10 ^ 9 -> 0 <= m < 10 ^ 9 ->
  n <> m -> data_key n <> data_key m.
Proof.
  intros Hn Hm Hne E. apply Hne.
  destruct (data_key_fixed_digits n Hn)
    as (a8 & a7 & a6 & a5 & a4 & a3 & a2 & a1 & a0 & Hfn & Hkn).
  destruct (data_key_fixed_digits m Hm)
    as (b8 & b7 & b6 & b5 & b4 & b3 & b2 & b1 & b0 & Hfm & Hkm).
  rewrite Hkn, Hkm in E. injection E as -> -> -> -> -> -> -> -> ->.
  rewrite <- Hfm in Hfn.
  apply fixed_digits_inj in Hfn as [Hnm _].
  - apply Z2N.inj in Hnm; lia.
  - change (10 ^ N.of_nat 9)%N with (Z.to_N (10 ^ 9)).
    apply Z2N.inj_lt; lia.
  - change (10 ^ N.of_nat 9)%N with (Z.to_N (10 ^ 9)).
    apply Z2N.inj_lt; lia.
Qed.

Lemma data_key_injective_witness : data_key 41 <> data_key 42.
Proof.
  apply (data_key_injective 41 42); lia.
Defined.

Lemma string_append_assoc (a b c : string) : (a +:+ b) +:+ c = a +:+ (b +:+ c).
Proof.
  induction a as [|ch a IH]; [reflexivity|].
  change ((String ch a +:+ b) +:+ c) with (String ch ((a +:+ b) +:+ c)).
  rewrite IH. reflexivity.
Qed.

Lemma fixed_digits_app k y s :
  fixed_digits k y s = fixed_digits k y "" +:+ s.
Proof.
  revert y s. induction k as [|k IH]; intros y s; [reflexivity|].
  cbn [fixed_digits].
  rewrite (IH _ (String _ s)), (IH _ (String _ "")).
  rewrite string_append_assoc. reflexivity.
Qed.

Lemma pretty_ten_digits (x : N) :
  (10 ^ 9 <= x < 10 ^ 10)%N ->
  pretty_N_go x "" = fixed_digits 10 x "".
Proof.
  intros Hx.
  destruct (fixed_digits_pretty 10 x "") as (j & Hj & Hlen); [simpl; lia|].
  destruct j as [|j]; [symmetry; exact Hj|].
  exfalso.
  assert (Hd : ((x / 10 / 10 / 10 / 10 / 10 / 10 / 10 / 10 / 10) mod 10 <> 0)%N).
  { replace (x / 10 / 10 / 10 / 10 / 10 / 10 / 10 / 10 / 10)%N
      with (x / 1000000000)%N
      by (rewrite !N.Div0.div_div; reflexivity).
    change (10 ^ 9)%N with 1000000000%N in Hx.
    change (10 ^ 10)%N with 10000000000%N in Hx.
    clear - Hx.
    assert (1 <= x / 1000000000 < 10)%N.
    { split.
      - apply N.div_le_lower_bound; [discriminate | lia].
      - apply N.Div0.div_lt_upper_bound. lia. }
    rewrite N.mod_small; lia. }
  cbn [fixed_digits] in Hj.
  change (string_repeat "0" (S j) +:+ pretty_N_go x "")
    with (String "0"%char (string_repeat "0" j +:+ pretty_N_go x "")) in Hj.
  injection Hj as Hc _.
  apply (pretty_N_char_inj _ 0%N) in Hc; [contradiction| |lia].
  apply N.mod_lt. lia.
Qed.

(** X20: from 10^9 on the key no longer tells sequences apart: the padded
    number has ten digits, the three slices take its first nine, and the
    key of a ten-digit sequence is the key of that sequence without its
    last digit. *)
Theorem data_key_drops_tenth_digit (n : Z) :
  10 ^ 9 <= n < 10 ^ 10 ->
  data_key n = data_key (n / 10).
Proof.
  intros Hn.
  assert (Hq : 0 <= n / 10 < 10 ^ 9).
  { split; [apply Z.div_pos; lia | apply Z.div_lt_upper_bound; lia]. }
  unfold data_key, sequencePath.
  rewrite (padStart_sequence (n / 10) Hq).
  rewrite Z2N.inj_div by lia. change (Z.to_N 10) with 10%N.
  destruct n as [|p|p]; [lia | | lia].
  change (Number_toString (Z.pos p)) with (pretty_N_go (N.pos p) "").
  rewrite pretty_ten_digits.
  - change (Z.to_N (Z.pos p)) with (N.pos p).
    cbn [fixed_digits]. reflexivity.
  - change (10 ^ 9)%N with (Z.to_N (10 ^ 9)).
    change (10 ^ 10)%N with (Z.to_N (10 ^ 10)).
    change (N.pos p) with (Z.to_N (Z.pos p)).
    split; [apply Z2N.inj_le; lia | apply Z2N.inj_lt; lia].
Qed.

Lemma data_key_drops_tenth_digit_witness :
  data_key 1234567890 = data_key (1234567890 / 10).
Proof.
  apply (data_key_drops_tenth_digit 1234567890). lia.
Defined.

(** * Properties of the flat, uncompressed revision *)

Section FlatRevision.

Context `{Runtime}.

Lemma dated_valid sequence :
  dated sequence ->
  exists ms, sequenceToTimestamp (ToNumber_sequence sequence) = ValidDate ms.
Proof.
  destruct sequence as [n|]; simpl.
  - intros Hn. rewrite (sequenceToTimestamp_valid n Hn). eauto.
  - intros _. eexists. reflexivity.
Qed.

(** The writer of the revision, case by case. *)
Lemma legacy_writer_cases u sequence batch w :
  LegacyRevision.writer u (sequence, batch) w =
  match sequenceToTimestamp (ToNumber_sequence sequence) with
  | InvalidDate => (Throw "RangeError: Invalid time value", w)
  | ValidDate ms =>
      let w1 := after_line (writer_line sequence batch) w in
      match LegacyRevision.writer_calls u sequence batch (now w) with
      | [] => (Ok (Some ("Unsupported protocol: " +:+ protocol (url_parse u))), w1)
      | calls => perform_each calls w1
      end
  end.
Proof.
  unfold LegacyRevision.writer, LegacyRevision.writer_calls, writer_line.
  unfold mbind at 1. unfold IO_bind at 1. unfold settle at 1.
  destruct (sequenceToTimestamp (ToNumber_sequence sequence)) as [ms|];
    [|reflexivity].
  cbn [Date_toISOString].
  unfold mbind at 1. unfold IO_bind at 1. unfold console_log at 1.
  fold (after_line (ToString_sequence sequence +:+ " (" +:+ Date_toISOString_ms ms
                    +:+ "): " +:+ pretty (length batch)) w).
  unfold mbind at 1. unfold IO_bind at 1. unfold now_toISOString at 1.
  cbv zeta.
  destruct (protocol (url_parse u) =? "s3:")%string.
  - rewrite perform_each_two. reflexivity.
  - destruct (protocol (url_parse u) =? "file:")%string.
    + rewrite perform_each_two. reflexivity.
    + reflexivity.
Qed.

Lemma legacy_supported_calls u sequence batch last_run :
  supported u = true ->
  exists data state,
    LegacyRevision.writer_calls u sequence batch last_run = [data; state].
Proof.
  unfold supported, LegacyRevision.writer_calls.
  destruct (protocol (url_parse u) =? "s3:")%string; [eauto|].
  destruct (protocol (url_parse u) =? "file:")%string; [eauto|discriminate].
Qed.

End FlatRevision.

(** X21: when neither call fails, the writer of the flat revision reports
    success and leaves the batch's lines, not compressed, under
    [`${sequence}.json`], and a state that names the sequence.  This holds
    for a batch without a sequence too, which this revision writes under
    ["null.json"] where the sharded one throws. *)
Theorem legacy_writer_success_stores_batch `{Runtime}
    (u : string) (sequence : option Z) (batch : list Event) (w : World) :
  dated sequence ->
  supported u = true ->
  no_fault_within 2 w ->
  LegacyRevision.distinct_names u sequence ->
  exists w',
    LegacyRevision.writer u (sequence, batch) w = (Ok None, w') /\
    LegacyRevision.stored_data u sequence w' = Some (batch_body batch) /\
    stored_state u w' = Some (YAML_stringify (now w) sequence) /\
    log w' = log w ++ map (fun c => (c, None))
                        (LegacyRevision.writer_calls u sequence batch (now w)) /\
    LegacyRevision.flat_key None = "null.json".
Proof.
  intros Hdated Hsup Hno [Hfile Hkey].
  rewrite legacy_writer_cases.
  destruct (dated_valid sequence Hdated) as [ms ->]. cbv zeta.
  destruct (legacy_supported_calls u sequence batch (now w) Hsup)
    as (data & state & Hcalls).
  rewrite Hcalls.
  rewrite perform_each_no_fault by exact Hno.
  eexists. split; [reflexivity|]. rewrite <- Hcalls. clear Hcalls data state.
  split; [|split; [|split; [rewrite after_calls_log; reflexivity | reflexivity]]].
  - unfold LegacyRevision.stored_data, LegacyRevision.writer_calls,
      supported, batch_body in *.
    destruct (protocol (url_parse u) =? "s3:")%string eqn:Es3.
    + rewrite (s3_not_file u Es3). simpl.
      rewrite lookup_insert_ne, lookup_insert_eq; [reflexivity|].
      intros [= E]. apply Hkey. symmetry. exact E.
    + destruct (protocol (url_parse u) =? "file:")%string; [|discriminate].
      simpl. rewrite lookup_insert_ne, lookup_insert_eq; [reflexivity|].
      intros E. apply Hfile. symmetry. exact E.
  - unfold stored_state, LegacyRevision.writer_calls, supported in *.
    destruct (protocol (url_parse u) =? "s3:")%string eqn:Es3.
    + rewrite (s3_not_file u Es3). simpl. rewrite lookup_insert_eq. reflexivity.
    + destruct (protocol (url_parse u) =? "file:")%string; [|discriminate].
      simpl. rewrite lookup_insert_eq. reflexivity.
Qed.

Lemma legacy_writer_success_stores_batch_witness :
  exists w',
    @LegacyRevision.writer Demo.runtime "file://./" (None, []) (Demo.world [])
    = (Ok None, w') /\
    @LegacyRevision.stored_data Demo.runtime "file://./" None w'
    = Some (@batch_body Demo.runtime []) /\
    @stored_state Demo.runtime "file://./" w'
    = Some (@YAML_stringify Demo.runtime (now (Demo.world [])) None) /\
    log w' = log (Demo.world [])
             ++ map (fun c => (c, None))
                  (@LegacyRevision.writer_calls Demo.runtime "file://./" None []
                     (now (Demo.world []))) /\
    LegacyRevision.flat_key None = "null.json".
Proof.
  apply (@legacy_writer_success_stores_batch Demo.runtime "file://./" None []
           (Demo.world [])).
  - exact I.
  - reflexivity.
  - constructor.
  - split; vm_compute; discriminate.
Defined.

(** X22: in the flat revision too the state only follows the data: when
    the write of the data object fails, the callback gets the error after
    that single call and nothing is stored; when the data object is
    written and the write of the state fails, the callback gets the error,
    the data object is there and the stored state is the one from
    before. *)
Theorem legacy_writer_state_follows_data `{Runtime}
    (u : string) (sequence : option Z) (batch : list Event) (w : World)
    (err : Error) (rest : list (option Error)) :
  dated sequence ->
  supported u = true ->
  LegacyRevision.distinct_names u sequence ->
  (faults w = Some err :: rest ->
   exists w' data,
     LegacyRevision.writer u (sequence, batch) w = (Ok (Some err), w') /\
     log w' = log w ++ [(data, Some err)] /\
     same_stores w w') /\
  (faults w = None :: Some err :: rest ->
   exists w',
     LegacyRevision.writer u (sequence, batch) w = (Ok (Some err), w') /\
     LegacyRevision.stored_data u sequence w' = Some (batch_body batch) /\
     stored_state u w' = stored_state u w).
Proof.
  intros Hdated Hsup [Hfile Hkey].
  destruct (dated_valid sequence Hdated) as [ms Hms].
  split; intros Hfaults.
  - rewrite legacy_writer_cases, Hms. cbv zeta.
    destruct (legacy_supported_calls u sequence batch (now w) Hsup)
      as (data & state & ->).
    cbn [perform_each]. unfold perform, next_fault. simpl faults.
    rewrite Hfaults. eexists. exists data.
    split; [reflexivity|]. repeat split.
  - rewrite legacy_writer_cases, Hms. cbv zeta.
    unfold LegacyRevision.writer_calls, LegacyRevision.stored_data,
      stored_state, supported, batch_body in *.
    destruct (protocol (url_parse u) =? "s3:")%string eqn:Es3.
    + rewrite (s3_not_file u Es3).
      cbn [perform_each]. unfold perform, next_fault. simpl faults.
      rewrite Hfaults. simpl. rewrite Hfaults. simpl.
      eexists. split; [reflexivity|]. simpl.
      rewrite lookup_insert_eq. split; [reflexivity|].
      rewrite lookup_insert_ne; [reflexivity|].
      intros [= E]. apply Hkey. exact E.
    + destruct (protocol (url_parse u) =? "file:")%string; [|discriminate].
      cbn [perform_each]. unfold perform, next_fault. simpl faults.
      rewrite Hfaults. simpl. rewrite Hfaults. simpl.
      eexists. split; [reflexivity|]. simpl.
      rewrite lookup_insert_eq. split; [reflexivity|].
      rewrite lookup_insert_ne; [reflexivity|].
      exact Hfile.
Qed.

Lemma legacy_writer_state_follows_data_witness :
  exists w',
    @LegacyRevision.writer Demo.runtime "file://./" (Some 100, [])
      (Demo.world [None; Some "EIO: write failed"])
    = (Ok (Some "EIO: write failed"), w') /\
    @LegacyRevision.stored_data Demo.runtime "file://./" (Some 100) w'
    = Some (@batch_body Demo.runtime []) /\
    @stored_state Demo.runtime "file://./" w'
    = @stored_state Demo.runtime "file://./"
        (Demo.world [None; Some "EIO: write failed"]).
Proof.
  apply (proj2 (@legacy_writer_state_follows_data Demo.runtime "file://./"
                  (Some 100) [] (Demo.world [None; Some "EIO: write failed"])
                  "EIO: write failed" []
                  ltac:(simpl; unfold last_dated_sequence; lia)
                  eq_refl
                  ltac:(split; vm_compute; discriminate))).
  reflexivity.
Defined.

(** X23: the two revisions choose the initial sequence alike whenever a
    non-zero sequence is given or no timestamp is; with a timestamp and no
    sequence the flat revision hands on the timestamp itself, where the
    sharded one converts it to a sequence number, and neither reads the
    stored state. *)
Theorem legacy_initialSequence_differs_on_timestamp `{Runtime}
    (options : Options) (w : World) :
  (truthy (initialSequence options) = true
   \/ truthy (timestamp options) = false ->
   LegacyRevision.main_initialSequence options w
   = main_initialSequence options w) /\
  (truthy (initialSequence options) = false ->
   truthy (timestamp options) = true ->
   LegacyRevision.main_initialSequence options w = (Ok (timestamp options), w) /\
   main_initialSequence options w
   = (Ok (number_or_NaN (timestampToSequence (timestamp options))), w)).
Proof.
  unfold LegacyRevision.main_initialSequence, LegacyRevision.js_or,
    main_initialSequence.
  split.
  - intros [Hs|Ht].
    + rewrite Hs, Hs. reflexivity.
    + destruct (truthy (initialSequence options)) eqn:Hs.
      * rewrite Hs. reflexivity.
      * rewrite Ht. reflexivity.
  - intros Hs Ht. rewrite Hs, Ht. split; reflexivity.
Qed.

Lemma legacy_initialSequence_differs_on_timestamp_witness :
  @LegacyRevision.main_initialSequence Demo.runtime
    {| initialSequence := JsUndefined;
       timestamp := JsString "2018-04-09T02:00:01Z"; target := None |}
    (Demo.world [])
  = (Ok (JsString "2018-04-09T02:00:01Z"), Demo.world []) /\
  @main_initialSequence Demo.runtime
    {| initialSequence := JsUndefined;
       timestamp := JsString "2018-04-09T02:00:01Z"; target := None |}
    (Demo.world [])
  = (Ok (number_or_NaN
           (@timestampToSequence Demo.runtime (JsString "2018-04-09T02:00:01Z"))),
     Demo.world []).
Proof.
  apply (proj2 (@legacy_initialSequence_differs_on_timestamp Demo.runtime
                  {| initialSequence := JsUndefined;
                     timestamp := JsString "2018-04-09T02:00:01Z";
                     target := None |}
                  (Demo.world []))); reflexivity.
Defined.

(** * The run as a whole *)

Lemma pairs_events_stream ps : map SVal (pairs_events ps) = pairs_stream ps.
Proof.
  unfold pairs_events, pairs_stream.
  induction ps as [|p ps IH]; [reflexivity|].
  cbn [map concat]. rewrite map_app, IH. f_equal.
  unfold pair_events, pair_stream. cbn [map]. rewrite map_app, map_map.
  reflexivity.
Qed.

Lemma pairs_events_transformable ps :
  Forall publishable ps -> forallb transformable (pairs_events ps) = true.
Proof.
  unfold pairs_events. induction 1 as [|p ps [_ Hnew] _ IH]; [reflexivity|].
  cbn [map concat]. rewrite forallb_app, IH, andb_true_r.
  unfold pair_events. cbn [forallb transformable]. rewrite forallb_app.
  cbn [forallb transformable]. rewrite andb_true_r.
  rewrite forallb_forall in Hnew. apply forallb_forall.
  intros x Hx. apply in_map_iff in Hx as (fc & <- & Hfc). apply Hnew. exact Hfc.
Qed.

(** What reaches the writer from a feed of publishable pairs. *)
Lemma batches_of_pairs ps :
  Forall publishable ps ->
  batches_of (pairs_events ps)
  = (map numbered_batch (map pair_written (List.filter has_changes ps)), None).
Proof.
  intros Hps. unfold batches_of.
  rewrite (run_accepts _ (pairs_events_transformable ps Hps)).
  rewrite batch_transformed, pairs_events_stream.
  unfold batch_by_sequence, batcher_init.
  rewrite consume_items_pairs. cbn [flush batched length Nat.ltb Nat.leb].
  rewrite app_nil_r, !map_map. reflexivity.
Qed.

Lemma last_pair_written l :
  last (map pair_written l) = option_map pair_written (last l).
Proof.
  induction l as [|p l IH]; [reflexivity|].
  cbn [map]. rewrite !last_cons, IH. destruct (last l); reflexivity.
Qed.

(** X24: the run end to end.  Started with an explicit, non-zero sequence
    on a [file:] or [s3:] target, fed complete pairs whose collections all
    have a ["new"] feature, and with no call failing, [main] resolves; it
    has written, in the order of the feed, one batch for every pair that
    has feature changes and nothing for the others, and the state it
    leaves names the start number of the last pair that had changes (the
    state is untouched when no pair had any). *)
Theorem main_publishes_every_pair `{Runtime}
    (options : Options) (AugmentedDiffs : JsValue -> list Event)
    (ps : list MarkerPair) (i : Z) (w : World) :
  initialSequence options = JsNumber i ->
  i <> 0 ->
  supported (targetURI_of options) = true ->
  faults w = [] ->
  AugmentedDiffs (JsNumber i) = pairs_events ps ->
  Forall publishable ps ->
  exists w',
    main options AugmentedDiffs w = (Resolved, w') /\
    log w' = log w
             ++ concat (map (completed_calls (targetURI_of options) (now w))
                          (map pair_written (List.filter has_changes ps))) /\
    stored_state (targetURI_of options) w' =
      match last (List.filter has_changes ps) with
      | Some p => Some (YAML_stringify (now w) (Some (pair_start p)))
      | None => stored_state (targetURI_of options) w
      end.
Proof.
  intros Hi Hnz Hsup Hfaults Hfeed Hps.
  unfold main. rewrite (main_initialSequence_explicit options w i Hi Hnz).
  rewrite Hfeed, (batches_of_pairs ps Hps).
  destruct (publish_all_no_fault (targetURI_of options)
              (map pair_written (List.filter has_changes ps)) w Hsup Hfaults)
    as (w' & Hpub & Hlog & Hstate).
  { apply Forall_forall. intros sb Hsb.
    apply list_elem_of_In, in_map_iff in Hsb as (p & <- & Hp).
    apply filter_In in Hp as [Hp _].
    rewrite Forall_forall in Hps. apply list_elem_of_In in Hp.
    destruct (Hps p Hp) as [Hrange _]. exact Hrange. }
  exists w'. rewrite Hpub. split; [reflexivity|]. split; [exact Hlog|].
  rewrite Hstate.
  generalize (List.filter has_changes ps) as l. intros l.
  rewrite last_pair_written. destruct (last l); reflexivity.
Qed.

Lemma main_publishes_every_pair_witness :
  exists w',
    @main Demo.runtime
      {| initialSequence := JsNumber 42; timestamp := JsUndefined; target := None |}
      (fun _ =>
         pairs_events
           [ {| pair_start := 42;
                pair_changes := [ {| fc_id := "create";
                                     fc_features := [new_feature ∅] |} ];
                pair_end := 42 |};
             {| pair_start := 43; pair_changes := []; pair_end := 43 |} ])
      (Demo.world [])
    = (Resolved, w') /\
    @stored_state Demo.runtime "file://./" w'
    = Some (@YAML_stringify Demo.runtime (now (Demo.world [])) (Some 42)).
Proof.
  destruct (@main_publishes_every_pair Demo.runtime
              {| initialSequence := JsNumber 42; timestamp := JsUndefined;
                 target := None |}
              (fun _ =>
                 pairs_events
                   [ {| pair_start := 42;
                        pair_changes := [ {| fc_id := "create";
                                             fc_features := [new_feature ∅] |} ];
                        pair_end := 42 |};
                     {| pair_start := 43; pair_changes := []; pair_end := 43 |} ])
              [ {| pair_start := 42;
                   pair_changes := [ {| fc_id := "create";
                                        fc_features := [new_feature ∅] |} ];
                   pair_end := 42 |};
                {| pair_start := 43; pair_changes := []; pair_end := 43 |} ]
              42 (Demo.world []))
    as (w' & Hmain & _ & Hstate).
  - reflexivity.
  - lia.
  - reflexivity.
  - reflexivity.
  - reflexivity.
  - unfold publishable, last_dated_sequence.
    repeat constructor; simpl; lia.
  - exists w'. split; [exact Hmain | exact Hstate].
Defined.

(** X25: a missing state is fatal before anything happens: with no
    sequence and no timestamp given, when there is nothing stored under
    the target's state name (or the target is not a [file:] or [s3:] one),
    [main] fails whatever the feed holds, without a write: files and
    objects stay as they were and the log gains at most the one read. *)
Theorem main_fails_without_state `{Runtime}
    (t : option string) (AugmentedDiffs : JsValue -> list Event) (w : World) :
  stored_state (targetURI_of (no_override t)) w = None ->
  exists err w' added,
    main (no_override t) AugmentedDiffs w = (Failed err, w') /\
    same_stores w w' /\
    log w' = log w ++ added /\
    Forall (fun entry => is_read (fst entry) = true) added.
Proof.
  intros Hstored. unfold main.
  change (main_initialSequence (no_override t) w)
    with (getCurrentSequence (targetURI_of (no_override t)) w).
  rewrite getCurrentSequence_cases, Hstored.
  assert (Hread : is_read (state_read (targetURI_of (no_override t))) = true).
  { unfold state_read. destruct (_ =? _)%string; reflexivity. }
  destruct (supported (targetURI_of (no_override t))).
  - destruct (next_fault w) as [err|].
    + do 3 eexists. split; [reflexivity|]. split; [split; reflexivity|].
      split; [reflexivity|]. repeat constructor. exact Hread.
    + do 3 eexists. split; [reflexivity|]. split; [split; reflexivity|].
      split; [reflexivity|]. repeat constructor. exact Hread.
  - exists ("Unsupported protocol: "
            +:+ protocol (url_parse (targetURI_of (no_override t)))), w, [].
    rewrite app_nil_r. repeat split. constructor.
Qed.

Lemma main_fails_without_state_witness :
  exists err w' added,
    @main Demo.runtime (no_override (Some "s3://bucket/augdiffs/"))
      (fun _ => []) (Demo.world [])
    = (Failed err, w') /\
    same_stores (Demo.world []) w' /\
    log w' = log (Demo.world []) ++ added /\
    Forall (fun entry => is_read (fst entry) = true) added.
Proof.
  apply (@main_fails_without_state Demo.runtime (Some "s3://bucket/augdiffs/")
           (fun _ => []) (Demo.world [])).
  vm_compute. reflexivity.
Defined.

Lemma timestamp_rounds_up_to_sequence_witness :
  exists n,
    @timestampToSequence Demo.runtime (JsDate (ValidDate 1347432961500)) = Some n /\
    sequence_ms (n - 1) < 1347432961000 <= sequence_ms n /\
    (forall k, 1347432961000 <= sequence_ms k -> n <= k).
Proof.
  exact (@timestamp_rounds_up_to_sequence Demo.runtime
           (JsDate (ValidDate 1347432961500))).
Defined.
